(** * Stream generation and time-sliced convergence detection

    A shallow embedding of the numeric core of the 4D Nexus Convergence Map
    (the generator [makeStreamParams], the sampler [pointOnStream] /
    [buildStreamPointsAtTime] and the detector [detectConvergenceAtTime]).

    Number model.  A JavaScript [number] is modelled by a real number of the
    Standard Library: [Math.sin], [Math.cos] and [Math.PI] are [sin], [cos]
    and [PI]; rounding error, NaN and the infinities are outside the model,
    so every statement below is about the exact-arithmetic reading of the
    code on finite inputs.  The 32-bit integer operations of the xorshift
    generator are modelled on [Z] with their wrap-around written out. *)

From Stdlib Require Import Reals Lra Lia ZArith List String Permutation
  SetoidPermutation Sorted Morphisms.
From stdpp Require Import gmap pretty.
Import ListNotations.

Local Open Scope R_scope.

(** ** Math / utils *)

(** [Math.floor]: the largest integer not above the argument. *)
Definition Math_floor (v : R) : Z := Int_part v.

(** [Math.round]: the nearest integer, a tie going to the larger one
    (ECMAScript: "the result is the Number value that is closer to
    +infinity"). *)
Definition Math_round (v : R) : Z := Int_part (v + / 2).

(** Truncation toward zero, the integer part used by the [%] operator. *)
Definition js_trunc (v : R) : Z :=
  if Rle_dec 0 v then Int_part v else (- Int_part (- v))%Z.

(** [a % b] on numbers: the remainder has the sign of the dividend. *)
Definition js_rem (a b : R) : R := a - b * IZR (js_trunc (a / b)).

(** [ToInt32] and [ToUint32] of an integer-valued number. *)
Definition ToInt32 (n : Z) : Z := ((n + 2 ^ 31) mod 2 ^ 32 - 2 ^ 31)%Z.
Definition ToUint32 (n : Z) : Z := (n mod 2 ^ 32)%Z.

(** The three steps of [rand], written apart so that each line of the
    source can be read off. *)
Definition xorshift32 (seed : Z) : Z :=
  let s0 := ToInt32 seed in
  (* seed ^= seed << 13 *)
  let s1 := Z.lxor s0 (ToInt32 (Z.shiftl s0 13)) in
  (* seed ^= seed >>> 17 *)
  let s2 := Z.lxor s1 (ToInt32 (Z.shiftr (ToUint32 s1) 17)) in
  (* seed ^= seed << 5 *)
  Z.lxor s2 (ToInt32 (Z.shiftl s2 5)).

Definition rand (seed : Z) : R :=
  js_rem (IZR (ToUint32 (xorshift32 seed)) / 4294967295) 1.

(** ** Stream parameter generator *)

Record StreamParams := {
  fx : R; fy : R; fz : R;
  ampY : R; ampZ : R;
  twist : R; swirl : R;
  phaseY : R; phaseZ : R;
  colorSeed : R
}.

(** [id.length] is the number of characters of the identifier. *)
Definition subseed (id : string) (seedBase : R) (k c : Z) : Z :=
  ToInt32 (Math_floor ((seedBase + IZR (Z.of_nat (String.length id)) * IZR k) * IZR c)).

Definition makeStreamParams (id : string) (seedBase : R) : StreamParams :=
  let s1 := subseed id seedBase 13 1000003 in
  let s2 := subseed id seedBase 37 9999989 in
  let s3 := subseed id seedBase 91 7000001 in
  let s4 := subseed id seedBase 59 5000161 in
  {| fx := 1 + rand s1 * 3.5;
     fy := 1 + rand s2 * 3;
     fz := 1 + rand s3 * 2.5;
     ampY := 0.25 + rand (Z.lxor s2 s3) * 0.45;
     ampZ := 0.25 + rand (Z.lxor s1 s4) * 0.45;
     twist := (rand (Z.lxor s1 s2) - 0.5) * 0.8;
     swirl := (rand (Z.lxor s2 s4) - 0.5) * 0.6;
     phaseY := rand (Z.lxor s3 s4) * PI * 2;
     phaseZ := rand (Z.lxor s4 s1) * PI * 2;
     colorSeed :=
       IZR (Math_floor
              (rand (Z.lxor (Z.lxor (Z.lxor s1 s2) s3) s4) * 360)) |}.

(** ** Curve sampler *)

Module StreamPoint.
Record t := mk { x : R; y : R; z : R; u : R; intensity : R }.
End StreamPoint.

Record Bounds := { w : R; h : R }.

Section Sampler.
Variables (u tau : R) (params : StreamParams) (bounds : Bounds).

Definition point_x : R :=
  w bounds * (u - 0.5)
  + sin ((u * fx params + tau * 0.15) * PI * 2) * twist params * 25.

Definition point_y : R :=
  (h bounds * ampY params)
    * sin ((u * fy params + tau * 0.22) * PI * 2 + phaseY params)
  + cos ((u * 1.2 + tau * 0.07) * PI * 2) * 10.

Definition point_z : R :=
  (h bounds * ampZ params)
    * cos ((u * fz params + tau * 0.18) * PI * 2 + phaseZ params)
  + sin ((u * 0.9 + tau * 0.11) * PI * 2) * swirl params * 30.

Definition point_intensity : R :=
  0.5 + 0.5 * sin ((u * (fy params + fz params) + tau * 0.2) * PI * 2
                   + phaseY params * 0.5 + phaseZ params * 0.5).

Definition pointOnStream : StreamPoint.t :=
  StreamPoint.mk point_x point_y point_z u point_intensity.
End Sampler.

(** The loop [for (let i = 0; i <= steps; i++)]: [fuel] bounds the number of
    iterations, [i] is the loop counter. *)
Fixpoint build_loop (params : StreamParams) (bounds : Bounds) (steps : Z)
    (tau : R) (fuel : nat) (i : Z) : list StreamPoint.t :=
  match fuel with
  | O => []
  | S fuel' =>
      if (i <=? steps)%Z
      then pointOnStream (IZR i / IZR steps) tau params bounds
             :: build_loop params bounds steps tau fuel' (i + 1)
      else []
  end.

Definition buildStreamPointsAtTime (params : StreamParams) (bounds : Bounds)
    (steps : Z) (tau : R) : list StreamPoint.t :=
  build_loop params bounds steps tau (Z.to_nat (steps + 1)) 0.

(** ** Convergence detection (4D slice at tau) *)

Record StreamPointWithId := {
  point : StreamPoint.t;
  streamId : string
}.

Module Convergence.
Record t := mk {
  x : R; y : R; z : R;
  strength : R;
  u : R;
  streams : list string
}.
End Convergence.

Record StreamData := { id : string; params : StreamParams }.

(** One component of a voxel key, as the template string prints it: an
    integer, or one of [Infinity], [-Infinity] and [NaN], which a division
    by a voxel size of 0 produces and [Math.round] returns unchanged. *)
Inductive cell : Type :=
  | Index (k : Z)
  | PosInfinity
  | NegInfinity
  | NaN.

#[global] Instance cell_eq_dec : EqDecision cell := ltac:(solve_decision).

Definition cell_code (c : cell) : Z + nat :=
  match c with
  | Index k => inl k
  | PosInfinity => inr 0%nat
  | NegInfinity => inr 1%nat
  | NaN => inr 2%nat
  end.

Definition cell_of_code (n : Z + nat) : cell :=
  match n with
  | inl k => Index k
  | inr 0%nat => PosInfinity
  | inr 1%nat => NegInfinity
  | inr _ => NaN
  end.

#[global] Instance cell_countable : Countable cell :=
  inj_countable' cell_code cell_of_code
    ltac:(intros []; reflexivity).

Section Detector.
Variables (tau sliceDu threshold : R) (steps : Z) (bounds : Bounds).

(** First loop: every stream is sampled and each sample is tagged with the
    identifier of its stream. *)
Definition tag (s : StreamData) (p : StreamPoint.t) : StreamPointWithId :=
  {| point := p; streamId := id s |}.

Definition stream_samples (s : StreamData) : list StreamPointWithId :=
  map (tag s) (buildStreamPointsAtTime (params s) bounds steps tau).

Definition all_samples (streams : list StreamData) : list StreamPointWithId :=
  flat_map stream_samples streams.

(** Body of the inner loop for one pair [a = all[i]], [b = all[j]]: the
    two [continue] tests, the distance test and the pushed event. *)
Definition dist2 (a b : StreamPointWithId) : R :=
  let dx := StreamPoint.x (point a) - StreamPoint.x (point b) in
  let dy := StreamPoint.y (point a) - StreamPoint.y (point b) in
  let dz := StreamPoint.z (point a) - StreamPoint.z (point b) in
  dx * dx + dy * dy + dz * dz.

Definition midpoint_event (a b : StreamPointWithId) : Convergence.t :=
  Convergence.mk
    ((StreamPoint.x (point a) + StreamPoint.x (point b)) * 0.5)
    ((StreamPoint.y (point a) + StreamPoint.y (point b)) * 0.5)
    ((StreamPoint.z (point a) + StreamPoint.z (point b)) * 0.5)
    ((StreamPoint.intensity (point a) + StreamPoint.intensity (point b)) * 0.5)
    ((StreamPoint.u (point a) + StreamPoint.u (point b)) * 0.5)
    [streamId a; streamId b].

Definition pair_body (a b : StreamPointWithId) : list Convergence.t :=
  if Rgt_dec (Rabs (StreamPoint.u (point a) - StreamPoint.u (point b))) sliceDu
  then []
  else if string_dec (streamId a) (streamId b)
  then []
  else if Rle_dec (dist2 a b) (threshold * threshold)
  then [midpoint_event a b]
  else [].

(** [for (let j = i + 1; j < all.length; j++)]: [rest] is the part of
    [all] after index [i]. *)
Fixpoint inner_loop (a : StreamPointWithId) (rest : list StreamPointWithId)
    : list Convergence.t :=
  match rest with
  | [] => []
  | b :: rest' => pair_body a b ++ inner_loop a rest'
  end.

(** [for (let i = 0; i < all.length; i++)]. *)
Fixpoint outer_loop (all : list StreamPointWithId) : list Convergence.t :=
  match all with
  | [] => []
  | a :: rest => inner_loop a rest ++ outer_loop rest
  end.

Definition candidates (streams : list StreamData) : list Convergence.t :=
  outer_loop (all_samples streams).

(** The voxel key.  The source builds the string
    [`${round(x/voxel)}_${round(y/voxel)}_${round(z/voxel)}`]; two such
    strings are equal exactly when their three components are, so the key
    is kept as the triple of components.  [cell_index v] is
    [Math.round(v / voxel)]: for a voxel size of 0 the quotient is
    [Infinity], [-Infinity] or [NaN] (for [0 / 0]), according to the sign
    of [v]. *)
Definition voxel : R := threshold * 0.75.

Definition cell_index (v : R) : cell :=
  if Req_dec_T voxel 0
  then (if Rlt_dec 0 v then PosInfinity
        else if Rlt_dec v 0 then NegInfinity
        else NaN)
  else Index (Math_round (v / voxel)).

Definition voxel_key (c : Convergence.t) : cell * cell * cell :=
  (cell_index (Convergence.x c),
   cell_index (Convergence.y c),
   cell_index (Convergence.z c)).

(** The deduplication loop, with its two pieces of state: the set [seen]
    and the array [deduped]. *)
Fixpoint dedupe_loop (cs : list Convergence.t) (seen : gset (cell * cell * cell))
    (deduped : list Convergence.t) : list Convergence.t :=
  match cs with
  | [] => deduped
  | c :: cs' =>
      let key := voxel_key c in
      if decide (key ∈ seen)
      then dedupe_loop cs' seen deduped
      else dedupe_loop cs' ({[key]} ∪ seen) (deduped ++ [c])
  end.

Definition dedupe (cs : list Convergence.t) : list Convergence.t :=
  dedupe_loop cs ∅ [].
End Detector.

(** [Array.prototype.sort] with a comparator.  The standard fixes the
    result for a consistent comparator: the stable rearrangement in which
    [cmp a b <= 0] for every [a] placed before [b].  It is computed here by
    insertion from the right, an element staying in front of the elements
    it compares equal to. *)
Section Sort.
Context {A : Type} (cmp : A -> A -> R).

Fixpoint sort_insert (a : A) (l : list A) : list A :=
  match l with
  | [] => [a]
  | b :: l' => if Rle_dec (cmp a b) 0 then a :: b :: l' else b :: sort_insert a l'
  end.

Fixpoint js_sort (l : list A) : list A :=
  match l with
  | [] => []
  | a :: l' => sort_insert a (js_sort l')
  end.
End Sort.

(** The comparator of the source: [(a, b) => b.strength - a.strength]. *)
Definition by_strength (a b : Convergence.t) : R :=
  Convergence.strength b - Convergence.strength a.

Definition detectConvergenceAtTime (streams : list StreamData)
    (tau sliceDu threshold : R) (steps : Z) (bounds : Bounds)
    : list Convergence.t :=
  let convergences := candidates tau sliceDu threshold steps bounds streams in
  let deduped := dedupe threshold convergences in
  firstn 200 (js_sort by_strength deduped).

(** ** Reference definitions used to state the properties *)

(** Events of a given strength, for the stability of the sort. *)
Definition has_strength (s : R) (e : Convergence.t) : bool :=
  if Req_dec_T (Convergence.strength e) s then true else false.

(** [a] may stand before [b] in a list sorted by strength, strongest
    first. *)
Definition stronger_or_equal (a b : Convergence.t) : Prop :=
  Convergence.strength b <= Convergence.strength a.

(** The elements of [cs] that are the first of their key: the element at
    index [i] is kept when none of the [i] elements before it has its
    key. *)
Definition keep_first {A K : Type} `{EqDecision K} (key : A -> K)
    (cs : list A) : list A :=
  map snd
    (List.filter
       (fun ic : nat * A =>
          negb (existsb (fun c' => bool_decide (key c' = key (snd ic)))
                  (firstn (fst ic) cs)))
       (combine (seq 0 (length cs)) cs)).

(** Rounding to the nearest integer with a tie going away from zero, as the
    specification words it, and the deduplication that wording describes. *)
Definition round_half_away (v : R) : Z :=
  if Rle_dec 0 v then Int_part (v + / 2) else (- Int_part (- v + / 2))%Z.

Definition spec_voxel_key (threshold : R) (c : Convergence.t) : Z * Z * Z :=
  (round_half_away (Convergence.x c / (threshold * 0.75)),
   round_half_away (Convergence.y c / (threshold * 0.75)),
   round_half_away (Convergence.z c / (threshold * 0.75))).

Definition spec_dedupe (threshold : R) (cs : list Convergence.t)
    : list Convergence.t :=
  keep_first (spec_voxel_key threshold) cs.


(** Streams whose position does not depend on their parameters: with no
    amplitude, twist or swirl, the point at [u] is
    [(w (u - 0.5), 10 cos((1.2 u + 0.07 tau) 2 pi), 0)]; only the
    intensity still depends on [fy]. *)
Definition flat_params (f : R) : StreamParams :=
  {| fx := 0; fy := f; fz := 0; ampY := 0; ampZ := 0; twist := 0; swirl := 0;
     phaseY := 0; phaseZ := 0; colorSeed := 0 |}.

Definition flat_stream (name : string) (f : R) : StreamData :=
  {| id := name; params := flat_params f |}.


(** Two streams with the same parameters, sampled with two segments. *)
Definition twin_streams : list StreamData :=
  [flat_stream "A" 0; flat_stream "B" 0].

Definition twin_bounds : Bounds := {| w := 75; h := 0 |}.

Definition twin_sample (name : string) (i : Z) : StreamPointWithId :=
  tag (flat_stream name 0)
    (pointOnStream (IZR i / 2) 0 (flat_params 0) twin_bounds).

Definition twin_event (i : Z) : Convergence.t :=
  midpoint_event (twin_sample "A" i) (twin_sample "B" i).


(** The condition under which the scan emits an event for a pair of
    samples. *)
Definition close_pair (sliceDu threshold : R) (a b : StreamPointWithId)
    : Prop :=
  streamId a <> streamId b /\
  Rabs (StreamPoint.u (point a) - StreamPoint.u (point b)) <= sliceDu /\
  dist2 a b <= threshold * threshold.

(** Defaults for reading a list by index. *)
Definition no_stream : StreamData := flat_stream "" 0.

Definition no_sample : StreamPointWithId :=
  tag no_stream (pointOnStream 0 0 (flat_params 0) {| w := 0; h := 0 |}).


(** Exchanging the streams at positions [i] and [j] of the input. *)
Definition swap_streams (i j : nat) (l : list StreamData) : list StreamData :=
  match nth_error l i, nth_error l j with
  | Some a, Some b => <[i := b]> (<[j := a]> l)
  | _, _ => l
  end.

(** Two events report the same thing: the same position and strength for
    the same two streams, named in either order. *)
Definition same_report (e1 e2 : Convergence.t) : Prop :=
  Convergence.x e1 = Convergence.x e2 /\
  Convergence.y e1 = Convergence.y e2 /\
  Convergence.z e1 = Convergence.z e2 /\
  Convergence.strength e1 = Convergence.strength e2 /\
  (Convergence.streams e1 = Convergence.streams e2 \/
   Convergence.streams e1 = rev (Convergence.streams e2)).

(** Two results report the same set of events. *)
Definition same_reports (out1 out2 : list Convergence.t) : Prop :=
  (forall e, In e out1 -> exists e', In e' out2 /\ same_report e e') /\
  (forall e, In e out2 -> exists e', In e' out1 /\ same_report e e').

(** Two flat streams that differ in intensity only, one segment each. *)
Definition duo_streams : list StreamData :=
  [flat_stream "A" 0.25; flat_stream "B" 0].

Definition duo_bounds : Bounds := {| w := 90; h := 0 |}.

Definition duo_sample (name : string) (f : R) (i : Z) : StreamPointWithId :=
  tag (flat_stream name f)
    (pointOnStream (IZR i / 1) 0 (flat_params f) duo_bounds).


(** ** The remaining numeric code of the component *)

(** [clamp] and [lerp]. *)
Definition clamp (v min max : R) : R := Rmin max (Rmax min v).

Definition lerp (a b t : R) : R := a + (b - a) * t.

(** The test [lo <= v && v < hi] of the hue sectors. *)
Definition in_sector (lo hi v : R) : bool :=
  if Rle_dec lo v then (if Rlt_dec v hi then true else false) else false.

Definition hslToRgb (h s l : R) : R * R * R :=
  let h := js_rem (js_rem h 360 + 360) 360 in
  let s := clamp s 0 1 in
  let l := clamp l 0 1 in
  let c := (1 - Rabs (2 * l - 1)) * s in
  let hp := h / 60 in
  let x := c * (1 - Rabs (js_rem hp 2 - 1)) in
  let '(r1, g1, b1) :=
    if in_sector 0 1 hp then (c, x, 0)
    else if in_sector 1 2 hp then (x, c, 0)
    else if in_sector 2 3 hp then (0, c, x)
    else if in_sector 3 4 hp then (0, x, c)
    else if in_sector 4 5 hp then (x, 0, c)
    else if in_sector 5 6 hp then (c, 0, x)
    else (0, 0, 0) in
  let m := l - c / 2 in
  (r1 + m, g1 + m, b1 + m).

(** [AnimationController] with [handleTauUpdate]: one rendered frame.  A
    paused frame returns before the update is sent. *)
Definition animation_frame (playing : bool) (speed delta tau : R) : R :=
  if playing then tau + delta * 0.15 * speed else tau.

(** The frames of a run, each with the elapsed time the renderer reports. *)
Definition animation_run (playing : bool) (speed : R) (deltas : list R)
    (tau : R) : R :=
  fold_left (fun t delta => animation_frame playing speed delta t) deltas tau.

(** The time elapsed over the frames of a run. *)
Definition sum_deltas (deltas : list R) : R := fold_right Rplus 0 deltas.

(** [emphasizeU]: [((tau % 1) + 1) % 1]. *)
Definition emphasizeU_of (tau : R) : R := js_rem (js_rem tau 1 + 1) 1.

(** The lightness of a vertex in [Stream]: 0.5 without emphasis, otherwise
    a bell around the emphasised path coordinate ([None] is [null]). *)
Definition vertex_lightness (emphasizeU : option R) (emphasizeWidth u : R)
    : R :=
  match emphasizeU with
  | None => 0.5
  | Some eu =>
      let du := Rabs (u - eu) in
      let weight := exp (- ((du / emphasizeWidth) * (du / emphasizeWidth))) in
      lerp 0.35 0.8 weight
  end.

(** The radius of the sphere drawn for an event. *)
Definition sphere_radius (strength : R) : R := 2.2 + strength * 2.

(** The streams of the scene.  [Math.random] is ambient; the list [draws]
    holds the values it returns, one for each stream in turn, so that
    [streamCount] is the length of the list. *)
Record StreamWithHue := { data : StreamData; hue : R }.

Definition stream_name (i : nat) : string := "S-" +:+ pretty (i + 1)%nat.

Definition seed_base (draw : R) : R := IZR (Math_floor (draw * 2 ^ 31)).

Definition scene_stream (i : nat) (draw : R) : StreamWithHue :=
  let name := stream_name i in
  let p := makeStreamParams name (seed_base draw) in
  {| data := {| id := name; params := p |};
     hue := js_rem (colorSeed p * 137.5) 360 |}.

Fixpoint scene_loop (i : nat) (draws : list R) : list StreamWithHue :=
  match draws with
  | [] => []
  | draw :: draws' => scene_stream i draw :: scene_loop (S i) draws'
  end.

Definition scene_streams (draws : list R) : list StreamWithHue :=
  scene_loop 0 draws.

(** The distance shown beside an event, to the nexus point. *)
Module NexusPoint.
Record t := mk { x : R; y : R; z : R }.
End NexusPoint.

Definition nexus_distance (c : Convergence.t) (p : NexusPoint.t) : R :=
  let dx := Convergence.x c - NexusPoint.x p in
  let dy := Convergence.y c - NexusPoint.y p in
  let dz := Convergence.z c - NexusPoint.z p in
  sqrt (dx * dx + dy * dy + dz * dz).

(** [v.toFixed(1)] for [0 <= v < 10^21]: the text is the decimal [n / 10]
    with one digit after the point, where [n] is the integer nearest to
    [10 v], the larger one on a tie.  The text is determined by [n], which
    stands for it here. *)
Definition toFixed1 (v : R) : Z := Math_floor (v * 10 + / 2).

(** The [dist] of the rows of the list of convergences: one for each of
    the first 20 events, in tenths. *)
Definition listed_distances (convergences : list Convergence.t)
    (p : NexusPoint.t) : list Z :=
  map (fun c => toFixed1 (nexus_distance c p)) (firstn 20 convergences).


(** Two streams that share an identifier. *)
Definition echo_streams : list StreamData :=
  [flat_stream "A" 0; flat_stream "A" 0].


(** * Properties *)

(** ** Integer parts *)

Lemma Math_floor_bounds (v : R) :
  IZR (Math_floor v) <= v < IZR (Math_floor v) + 1.
Proof.
  unfold Math_floor. destruct (base_Int_part v) as [Hlo Hhi]. split; lra.
Qed.

Lemma Math_floor_unique (v : R) (n : Z) :
  IZR n <= v < IZR n + 1 -> Math_floor v = n.
Proof.
  intros [Hlo Hhi]. unfold Math_floor. symmetry. apply Int_part_spec. lra.
Qed.

Lemma Math_round_bounds (v : R) :
  IZR (Math_round v) - / 2 <= v < IZR (Math_round v) + / 2.
Proof.
  unfold Math_round. destruct (base_Int_part (v + / 2)) as [Hlo Hhi].
  split; lra.
Qed.

Lemma Math_round_unique (v : R) (n : Z) :
  IZR n - / 2 <= v < IZR n + / 2 -> Math_round v = n.
Proof.
  intros [Hlo Hhi]. unfold Math_round. symmetry. apply Int_part_spec. lra.
Qed.

(** ** The pseudo-random helper *)

Lemma ToUint32_range (n : Z) : (0 <= ToUint32 n < 2 ^ 32)%Z.
Proof. unfold ToUint32. apply Z.mod_pos_bound. lia. Qed.

Lemma js_rem_1_range (q : R) : 0 <= q -> 0 <= js_rem q 1 < 1.
Proof.
  intros Hq. unfold js_rem, js_trunc.
  replace (q / 1) with q by field.
  destruct (Rle_dec 0 q) as [_ | Hn]; [| contradiction].
  pose proof (Math_floor_bounds q) as Hb. unfold Math_floor in Hb. lra.
Qed.

Lemma rand_range (seed : Z) : 0 <= rand seed < 1.
Proof.
  unfold rand. apply js_rem_1_range.
  pose proof (ToUint32_range (xorshift32 seed)) as [Hlo _].
  apply IZR_le in Hlo.
  apply Rmult_le_pos; [exact Hlo |].
  apply Rlt_le, Rinv_0_lt_compat. lra.
Qed.

Lemma Math_floor_scaled_range (r : R) (n : Z) :
  (0 < n)%Z -> 0 <= r < 1 -> (0 <= Math_floor (r * IZR n) < n)%Z.
Proof.
  intros Hn [Hlo Hhi].
  pose proof (Math_floor_bounds (r * IZR n)) as [Hf1 Hf2].
  assert (Hpos : 0 < IZR n) by (apply IZR_lt; exact Hn).
  split.
  - apply Z.lt_succ_r, lt_IZR. rewrite succ_IZR.
    assert (0 <= r * IZR n) by (apply Rmult_le_pos; lra). lra.
  - apply lt_IZR.
    assert (r * IZR n < IZR n) by nra. lra.
Qed.

Lemma makeStreamParams_frequency_amplitudes (ident : string) (seedBase : R) :
  let p := makeStreamParams ident seedBase in
  1 <= fx p < 4.5 /\ 0.25 <= ampY p < 0.70 /\ 0.25 <= ampZ p < 0.70.
Proof.
  cbn.
  repeat split;
    match goal with
    | |- context [rand ?s] => pose proof (rand_range s); lra
    end.
Qed.

(** C8.  The pseudo-random helper returns a value in [0,1) for every
    integer seed; consequently, for every identifier and seed base, the
    generated x-frequency lies in [1.0, 4.5), both amplitude scales lie in
    [0.25, 0.70) and the colour seed is an integer in [0, 360). *)
Theorem makeStreamParams_ranges :
  (forall seed : Z, 0 <= rand seed < 1) /\
  (forall (ident : string) (seedBase : R),
     let p := makeStreamParams ident seedBase in
     1 <= fx p < 4.5 /\
     0.25 <= ampY p < 0.70 /\
     0.25 <= ampZ p < 0.70 /\
     exists k : Z, colorSeed p = IZR k /\ (0 <= k < 360)%Z).
Proof.
  split; [exact rand_range |].
  intros ident seedBase p.
  destruct (makeStreamParams_frequency_amplitudes ident seedBase)
    as (Hfx & HaY & HaZ).
  split; [exact Hfx |]. split; [exact HaY |]. split; [exact HaZ |].
  subst p. unfold makeStreamParams. cbn [colorSeed].
  eexists. split; [reflexivity |].
  apply Math_floor_scaled_range; [lia | apply rand_range].
Qed.

(** The remaining generated parameters, used for the position bounds. *)
Lemma makeStreamParams_twist_swirl (ident : string) (seedBase : R) :
  let p := makeStreamParams ident seedBase in
  Rabs (twist p) <= 0.4 /\ Rabs (swirl p) <= 0.3.
Proof.
  cbn. split; apply Rabs_le;
    match goal with
    | |- context [rand ?s] => pose proof (rand_range s); lra
    end.
Qed.

Example xorshift32_1 : xorshift32 1 = 270369%Z.
Proof. reflexivity. Qed.

Example xorshift32_wraps : xorshift32 123456789 = (-1579999415)%Z.
Proof. reflexivity. Qed.

Example rand_0 : rand 0 = 0.
Proof.
  unfold rand. change (ToUint32 (xorshift32 0)) with 0%Z.
  unfold js_rem, js_trunc.
  replace (0 / 4294967295 / 1) with 0 by field.
  destruct (Rle_dec 0 0) as [_ | Hn]; [| lra].
  rewrite <- (Int_part_spec 0 0) by lra. lra.
Qed.

(** ** The sampler *)

Lemma build_loop_length params bounds steps tau fuel i :
  (i + Z.of_nat fuel <= steps + 1)%Z ->
  length (build_loop params bounds steps tau fuel i) = fuel.
Proof.
  revert i. induction fuel as [| fuel IH]; intros i Hi; [reflexivity |].
  cbn [build_loop]. destruct (Z.leb_spec i steps) as [_ | Hgt]; [| lia].
  cbn [length]. f_equal. apply IH. lia.
Qed.

Lemma build_loop_nth params bounds steps tau fuel i (k : nat) :
  (i + Z.of_nat fuel <= steps + 1)%Z -> (k < fuel)%nat ->
  nth_error (build_loop params bounds steps tau fuel i) k
  = Some (pointOnStream (IZR (i + Z.of_nat k) / IZR steps) tau params bounds).
Proof.
  revert i k. induction fuel as [| fuel IH]; intros i k Hi Hk; [lia |].
  cbn [build_loop]. destruct (Z.leb_spec i steps) as [_ | Hgt]; [| lia].
  destruct k as [| k].
  - cbn. now rewrite Z.add_0_r.
  - cbn [nth_error]. rewrite IH by lia.
    replace (i + 1 + Z.of_nat k)%Z with (i + Z.of_nat (S k))%Z by lia.
    reflexivity.
Qed.

Lemma buildStreamPointsAtTime_length params bounds steps tau :
  length (buildStreamPointsAtTime params bounds steps tau)
  = Z.to_nat (steps + 1).
Proof.
  unfold buildStreamPointsAtTime.
  destruct (Z.le_gt_cases 0 (steps + 1)) as [Hs | Hs].
  - apply build_loop_length. lia.
  - replace (Z.to_nat (steps + 1)) with 0%nat by lia. reflexivity.
Qed.

(** C6.  For a segment count of at least 1 the sampled curve has exactly
    [segmentCount + 1] points; the i-th one is [pointOnStream] at
    [u = i / segmentCount]; these values start at 0, end at 1 and are
    evenly spaced. *)
Theorem buildStreamPointsAtTime_spec params bounds (steps : Z) tau :
  (1 <= steps)%Z ->
  let pts := buildStreamPointsAtTime params bounds steps tau in
  let u_at (i : Z) := IZR i / IZR steps in
  length pts = Z.to_nat (steps + 1) /\
  (forall i : Z, (0 <= i <= steps)%Z ->
     nth_error pts (Z.to_nat i) = Some (pointOnStream (u_at i) tau params bounds) /\
     StreamPoint.u (pointOnStream (u_at i) tau params bounds) = u_at i) /\
  u_at 0%Z = 0 /\ u_at steps = 1 /\
  (forall i : Z, u_at (i + 1)%Z - u_at i = 1 / IZR steps).
Proof.
  intros Hs pts u_at. subst pts u_at. cbv beta.
  assert (Hnz : IZR steps <> 0) by (apply not_0_IZR; lia).
  split; [apply buildStreamPointsAtTime_length |].
  split; [| split; [| split]].
  - intros i Hi. split; [| reflexivity].
    unfold buildStreamPointsAtTime.
    rewrite build_loop_nth by lia.
    replace (0 + Z.of_nat (Z.to_nat i))%Z with i by lia. reflexivity.
  - field. exact Hnz.
  - field. exact Hnz.
  - intros i. rewrite plus_IZR. field. exact Hnz.
Qed.

Lemma buildStreamPointsAtTime_spec_witness :
  let pts := buildStreamPointsAtTime
               (makeStreamParams "S-1" 7) {| w := 520; h := 520 |} 2 0 in
  length pts = 3%nat /\
  IZR 0 / IZR 2 = 0 /\ IZR 2 / IZR 2 = 1.
Proof.
  pose proof (buildStreamPointsAtTime_spec
                (makeStreamParams "S-1" 7) {| w := 520; h := 520 |} 2 0
                ltac:(lia)) as (Hlen & _ & H0 & H1 & _).
  cbv zeta. split; [exact Hlen |]. split; [exact H0 | exact H1].
Defined.

(** C7.  The intensity of a sampled point lies in [0,1]; the three
    coordinates are [point_x], [point_y] and [point_z], none of which
    refers to the intensity. *)
Theorem pointOnStream_intensity (u tau : R) (params : StreamParams)
    (bounds : Bounds) :
  let p := pointOnStream u tau params bounds in
  0 <= StreamPoint.intensity p <= 1 /\
  StreamPoint.x p = point_x u tau params bounds /\
  StreamPoint.y p = point_y u tau params bounds /\
  StreamPoint.z p = point_z u tau params bounds.
Proof.
  cbn. unfold point_intensity.
  match goal with
  | |- context [sin ?a] => pose proof (SIN_bound a) as [Hlo Hhi]
  end.
  repeat split; lra.
Qed.

(** ** Position bounds *)

Lemma Rabs_mult_le (a b A B : R) :
  Rabs a <= A -> Rabs b <= B -> Rabs (a * b) <= A * B.
Proof.
  intros Ha Hb. rewrite Rabs_mult.
  apply Rmult_le_compat; auto using Rabs_pos.
Qed.

Lemma Rabs_sin_le (a : R) : Rabs (sin a) <= 1.
Proof. apply Rabs_le. destruct (SIN_bound a). split; lra. Qed.

Lemma Rabs_cos_le (a : R) : Rabs (cos a) <= 1.
Proof. apply Rabs_le. destruct (COS_bound a). split; lra. Qed.

Lemma Rabs_plus_le (a b A B : R) :
  Rabs a <= A -> Rabs b <= B -> Rabs (a + b) <= A + B.
Proof. intros Ha Hb. pose proof (Rabs_triang a b). lra. Qed.

(** C10.  For a path coordinate in [0,1], bounds of non-negative width and
    height and generated parameters, the sampled position lies in the box
    |x| <= w/2 + 10, |y| <= 0.70 h + 10, |z| <= 0.70 h + 9, whatever the
    time. *)
Theorem pointOnStream_in_box (u tau : R) (bounds : Bounds)
    (ident : string) (seedBase : R) :
  0 <= u <= 1 -> 0 <= w bounds -> 0 <= h bounds ->
  let p := pointOnStream u tau (makeStreamParams ident seedBase) bounds in
  Rabs (StreamPoint.x p) <= w bounds / 2 + 10 /\
  Rabs (StreamPoint.y p) <= 0.70 * h bounds + 10 /\
  Rabs (StreamPoint.z p) <= 0.70 * h bounds + 9.
Proof.
  intros Hu Hw Hh p. subst p.
  destruct (makeStreamParams_frequency_amplitudes ident seedBase)
    as (_ & HaY & HaZ).
  destruct (makeStreamParams_twist_swirl ident seedBase) as [Htw Hsw].
  set (prm := makeStreamParams ident seedBase) in *.
  cbv zeta in HaY, HaZ, Htw, Hsw.
  cbn [pointOnStream StreamPoint.x StreamPoint.y StreamPoint.z].
  unfold point_x, point_y, point_z.
  split; [| split].
  - apply Rabs_plus_le.
    + apply Rabs_le. nra.
    + replace 10 with (1 * 0.4 * 25) by lra.
      apply Rabs_mult_le; [| rewrite Rabs_pos_eq; lra].
      apply Rabs_mult_le; [apply Rabs_sin_le | exact Htw].
  - apply Rabs_plus_le.
    + replace (0.70 * h bounds) with (h bounds * 0.70 * 1) by lra.
      apply Rabs_mult_le; [| apply Rabs_sin_le].
      apply Rabs_le. nra.
    + replace 10 with (1 * 10) by lra.
      apply Rabs_mult_le; [apply Rabs_cos_le | rewrite Rabs_pos_eq; lra].
  - apply Rabs_plus_le.
    + replace (0.70 * h bounds) with (h bounds * 0.70 * 1) by lra.
      apply Rabs_mult_le; [| apply Rabs_cos_le].
      apply Rabs_le. nra.
    + replace 9 with (1 * 0.3 * 30) by lra.
      apply Rabs_mult_le; [| rewrite Rabs_pos_eq; lra].
      apply Rabs_mult_le; [apply Rabs_sin_le | exact Hsw].
Qed.

Lemma pointOnStream_in_box_witness :
  let b := {| w := 520; h := 520 |} in
  let p := pointOnStream (/ 2) 3 (makeStreamParams "S-1" 7) b in
  Rabs (StreamPoint.x p) <= w b / 2 + 10 /\
  Rabs (StreamPoint.y p) <= 0.70 * h b + 10 /\
  Rabs (StreamPoint.z p) <= 0.70 * h b + 9.
Proof.
  apply (pointOnStream_in_box (/ 2) 3 {| w := 520; h := 520 |} "S-1" 7);
    simpl; lra.
Defined.

(** ** The pairwise scan *)

Section Scan.
Variables (sliceDu : R).

Lemma pair_body_length_le (t : R) (a b : StreamPointWithId) :
  (length (pair_body sliceDu t a b) <= 1)%nat.
Proof.
  unfold pair_body.
  repeat match goal with |- context [if ?c then _ else _] => destruct c end;
    simpl; lia.
Qed.

Lemma pair_body_mono (t1 t2 : R) (a b : StreamPointWithId) :
  0 <= t1 <= t2 ->
  (length (pair_body sliceDu t1 a b) <= length (pair_body sliceDu t2 a b))%nat.
Proof.
  intros Ht. unfold pair_body.
  destruct (Rgt_dec _ sliceDu); [simpl; lia |].
  destruct (string_dec _ _); [simpl; lia |].
  destruct (Rle_dec (dist2 a b) (t1 * t1)) as [H1 | H1];
    destruct (Rle_dec (dist2 a b) (t2 * t2)) as [H2 | H2]; simpl; try lia.
  exfalso. apply H2. nra.
Qed.

Lemma inner_loop_mono (t1 t2 : R) (a : StreamPointWithId) rest :
  0 <= t1 <= t2 ->
  (length (inner_loop sliceDu t1 a rest)
   <= length (inner_loop sliceDu t2 a rest))%nat.
Proof.
  intros Ht. induction rest as [| b rest IH]; [simpl; lia |].
  cbn [inner_loop]. rewrite !length_app.
  pose proof (pair_body_mono t1 t2 a b Ht). lia.
Qed.

Lemma outer_loop_mono (t1 t2 : R) all :
  0 <= t1 <= t2 ->
  (length (outer_loop sliceDu t1 all) <= length (outer_loop sliceDu t2 all))%nat.
Proof.
  intros Ht. induction all as [| a rest IH]; [simpl; lia |].
  cbn [outer_loop]. rewrite !length_app.
  pose proof (inner_loop_mono t1 t2 a rest Ht). lia.
Qed.
End Scan.

(** C9.  With everything else fixed, a larger proximity threshold never
    yields fewer raw candidates. *)
Theorem candidates_threshold_mono (streams : list StreamData)
    (tau sliceDu t1 t2 : R) (steps : Z) (bounds : Bounds) :
  0 <= t1 <= t2 ->
  (length (candidates tau sliceDu t1 steps bounds streams)
   <= length (candidates tau sliceDu t2 steps bounds streams))%nat.
Proof. intros Ht. unfold candidates. now apply outer_loop_mono. Qed.

Lemma candidates_threshold_mono_witness :
  (length (candidates 0 0.025 16 80 {| w := 520; h := 520 |}
             [{| id := "S-1"; params := makeStreamParams "S-1" 1 |};
              {| id := "S-2"; params := makeStreamParams "S-2" 2 |}])
   <= length (candidates 0 0.025 64 80 {| w := 520; h := 520 |}
             [{| id := "S-1"; params := makeStreamParams "S-1" 1 |};
              {| id := "S-2"; params := makeStreamParams "S-2" 2 |}]))%nat.
Proof. apply candidates_threshold_mono. lra. Defined.

(** ** Sorting by strength *)

Lemma sort_insert_perm (a : Convergence.t) l :
  Permutation (sort_insert by_strength a l) (a :: l).
Proof.
  induction l as [| b l IH]; [reflexivity |].
  cbn [sort_insert]. destruct (Rle_dec _ 0); [reflexivity |].
  rewrite IH. apply perm_swap.
Qed.

Lemma js_sort_perm l : Permutation (js_sort by_strength l) l.
Proof.
  induction l as [| a l IH]; [reflexivity |].
  cbn [js_sort]. rewrite sort_insert_perm. now constructor.
Qed.

Lemma sort_insert_Forall (P : Convergence.t -> Prop) a l :
  P a -> Forall P l -> Forall P (sort_insert by_strength a l).
Proof.
  intros Ha Hl. eapply Permutation_Forall.
  - symmetry. apply sort_insert_perm.
  - now constructor.
Qed.

Lemma sort_insert_sorted a l :
  StronglySorted stronger_or_equal l ->
  StronglySorted stronger_or_equal (sort_insert by_strength a l).
Proof.
  induction 1 as [| b l Hs IH Hb]; cbn [sort_insert].
  - repeat constructor.
  - destruct (Rle_dec (by_strength a b) 0) as [Hle | Hgt].
    + constructor; [now constructor |].
      unfold by_strength in Hle.
      constructor; [unfold stronger_or_equal; lra |].
      eapply List.Forall_impl; [| exact Hb].
      unfold stronger_or_equal. intros c Hc. lra.
    + constructor; [exact IH |].
      apply sort_insert_Forall; [| exact Hb].
      unfold by_strength in Hgt. unfold stronger_or_equal. lra.
Qed.

Lemma js_sort_sorted l :
  StronglySorted stronger_or_equal (js_sort by_strength l).
Proof.
  induction l as [| a l IH]; cbn [js_sort]; [constructor |].
  now apply sort_insert_sorted.
Qed.

Lemma sort_insert_stable (s : R) a l :
  List.filter (has_strength s) (sort_insert by_strength a l)
  = List.filter (has_strength s) (a :: l).
Proof.
  induction l as [| b l IH]; [reflexivity |].
  cbn [sort_insert]. destruct (Rle_dec (by_strength a b) 0) as [Hle | Hgt];
    [reflexivity |].
  cbn [List.filter] in *. rewrite IH.
  unfold has_strength, by_strength in *.
  destruct (Req_dec_T (Convergence.strength b) s);
    destruct (Req_dec_T (Convergence.strength a) s); try reflexivity.
  exfalso. lra.
Qed.

Lemma js_sort_stable (s : R) l :
  List.filter (has_strength s) (js_sort by_strength l)
  = List.filter (has_strength s) l.
Proof.
  induction l as [| a l IH]; [reflexivity |].
  cbn [js_sort]. rewrite sort_insert_stable.
  cbn [List.filter]. now rewrite IH.
Qed.

Lemma In_firstn {A} (n : nat) (l : list A) (a : A) :
  In a (firstn n l) -> In a l.
Proof.
  intros Ha. rewrite <- (firstn_skipn n l). apply in_or_app. now left.
Qed.

Lemma StronglySorted_firstn {A} (R : A -> A -> Prop) (n : nat) l :
  StronglySorted R l -> StronglySorted R (firstn n l).
Proof.
  intros Hl. revert n. induction Hl as [| a l Hs IH Ha]; intros [| n];
    cbn [firstn]; try constructor.
  - apply IH.
  - apply List.Forall_forall. intros b Hb. rewrite List.Forall_forall in Ha.
    apply Ha. eapply In_firstn. exact Hb.
Qed.

(** C2.  The detector returns at most 200 events, sorted by strength
    non-increasing: the result is the first 200 elements of a stable
    rearrangement of the deduplicated list (events of equal strength keep
    the order they had after deduplication). *)
Theorem detect_sorted_capped (streams : list StreamData)
    (tau sliceDu threshold : R) (steps : Z) (bounds : Bounds) :
  let deduped :=
    dedupe threshold (candidates tau sliceDu threshold steps bounds streams) in
  let out :=
    detectConvergenceAtTime streams tau sliceDu threshold steps bounds in
  (length out <= 200)%nat /\
  StronglySorted stronger_or_equal out /\
  exists sorted : list Convergence.t,
    out = firstn 200 sorted /\
    Permutation sorted deduped /\
    StronglySorted stronger_or_equal sorted /\
    forall s : R,
      List.filter (has_strength s) sorted = List.filter (has_strength s) deduped.
Proof.
  intros deduped out. subst out. unfold detectConvergenceAtTime.
  fold deduped. split; [apply firstn_le_length |].
  split; [apply StronglySorted_firstn, js_sort_sorted |].
  exists (js_sort by_strength deduped).
  split; [reflexivity |].
  split; [apply js_sort_perm |].
  split; [apply js_sort_sorted |].
  intros s. apply js_sort_stable.
Qed.

(** ** Deduplication *)

Lemma firstn_app_length {A} (l1 l2 : list A) :
  firstn (length l1) (l1 ++ l2) = l1.
Proof. induction l1 as [| a l1 IH]; [reflexivity |]. cbn. now rewrite IH. Qed.

Section Dedupe.
Variable threshold : R.

Let key := voxel_key threshold.

Let is_first (full : list Convergence.t) (ic : nat * Convergence.t) : bool :=
  negb (existsb (fun c' => bool_decide (key c' = key (snd ic)))
          (firstn (fst ic) full)).

Lemma dedupe_loop_keep_first (pre cs : list Convergence.t)
    (seen : gset (cell * cell * cell)) (acc : list Convergence.t) :
  (forall k, k ∈ seen <-> exists c', In c' pre /\ key c' = k) ->
  dedupe_loop threshold cs seen acc
  = acc ++ map snd (List.filter (is_first (pre ++ cs))
                      (combine (seq (length pre) (length cs)) cs)).
Proof.
  revert pre seen acc.
  induction cs as [| c cs IH]; intros pre seen acc Hseen.
  - cbn. now rewrite app_nil_r.
  - cbn [dedupe_loop length seq combine List.filter].
    assert (Hfirst : is_first (pre ++ c :: cs) (length pre, c)
                     = negb (bool_decide (key c ∈ seen))).
    { unfold is_first. cbn [fst snd]. rewrite firstn_app_length. f_equal.
      destruct (decide (key c ∈ seen)) as [Hin | Hout].
      - rewrite (bool_decide_eq_true_2 _ Hin).
        apply Hseen in Hin as (c' & Hc' & Hk).
        apply existsb_exists. exists c'. split; [exact Hc' |].
        now apply bool_decide_eq_true_2.
      - rewrite (bool_decide_eq_false_2 _ Hout).
        destruct (existsb _ pre) eqn:Hex; [| reflexivity].
        apply existsb_exists in Hex as (c' & Hc' & Hk).
        apply bool_decide_eq_true_1 in Hk.
        exfalso. apply Hout, Hseen. now exists c'. }
    rewrite Hfirst.
    replace (pre ++ c :: cs) with ((pre ++ [c]) ++ cs)
      by (now rewrite <- app_assoc).
    replace (S (length pre)) with (length (pre ++ [c]))
      by (rewrite length_app; cbn; lia).
    fold key. destruct (decide (key c ∈ seen)) as [Hin | Hout].
    + rewrite (bool_decide_eq_true_2 _ Hin). cbn [negb].
      apply IH. intros k. rewrite Hseen. split.
      * intros (c' & Hc' & Hk). exists c'. split; [| exact Hk].
        apply in_or_app. now left.
      * intros (c' & Hc' & Hk). apply in_app_or in Hc' as [Hc' | Hc'].
        -- now exists c'.
        -- destruct Hc' as [<- | []]. apply Hseen. now rewrite Hk in Hin.
    + rewrite (bool_decide_eq_false_2 _ Hout). cbn [negb map snd].
      rewrite (IH (pre ++ [c]) ({[key c]} ∪ seen) (acc ++ [c])).
      * now rewrite <- app_assoc.
      * intros k. rewrite elem_of_union, elem_of_singleton, Hseen. split.
        -- intros [-> | (c' & Hc' & Hk)].
           ++ exists c. split; [| reflexivity]. apply in_or_app. right. now left.
           ++ exists c'. split; [| exact Hk]. apply in_or_app. now left.
        -- intros (c' & Hc' & Hk). apply in_app_or in Hc' as [Hc' | Hc'].
           ++ right. now exists c'.
           ++ destruct Hc' as [<- | []]. now left.
Qed.

Lemma dedupe_keep_first (cs : list Convergence.t) :
  dedupe threshold cs = keep_first (voxel_key threshold) cs.
Proof.
  unfold dedupe, keep_first.
  rewrite (dedupe_loop_keep_first [] cs ∅ []); [reflexivity |].
  intros k. split.
  - intros Hk. now apply not_elem_of_empty in Hk.
  - intros (c' & [] & _).
Qed.
End Dedupe.

Lemma cell_index_nonzero (threshold v : R) :
  threshold <> 0 ->
  cell_index threshold v = Index (Math_round (v / (threshold * 0.75))).
Proof.
  intros Ht. unfold cell_index, voxel.
  destruct (Req_dec_T (threshold * 0.75) 0) as [Hz | _]; [lra | reflexivity].
Qed.

Lemma voxel_key_cell (threshold : R) (c : Convergence.t) :
  threshold <> 0 ->
  let in_cell (k v : R) := k - / 2 <= v / (threshold * 0.75) < k + / 2 in
  exists kx ky kz : Z,
    voxel_key threshold c = (Index kx, Index ky, Index kz) /\
    in_cell (IZR kx) (Convergence.x c) /\
    in_cell (IZR ky) (Convergence.y c) /\
    in_cell (IZR kz) (Convergence.z c).
Proof.
  intros Ht. cbv zeta. unfold voxel_key.
  rewrite !cell_index_nonzero by exact Ht.
  eexists _, _, _. split; [reflexivity |].
  repeat split; apply Math_round_bounds.
Qed.

(** C4, as the code has it.  For a nonzero threshold, each candidate is
    mapped to the cell key obtained by dividing its coordinates by
    [threshold * 0.75] and rounding to the nearest integer, a tie going to
    the larger integer (the rounding of [Math.round]); the deduplicated
    list consists of exactly the candidates that are the first of their
    key in scan order, and the result of the detector is computed from
    it. *)
Theorem dedupe_first_per_cell (streams : list StreamData)
    (tau sliceDu threshold : R) (steps : Z) (bounds : Bounds) :
  threshold <> 0 ->
  let cs := candidates tau sliceDu threshold steps bounds streams in
  dedupe threshold cs = keep_first (voxel_key threshold) cs /\
  detectConvergenceAtTime streams tau sliceDu threshold steps bounds
  = firstn 200 (js_sort by_strength (keep_first (voxel_key threshold) cs)) /\
  forall c : Convergence.t,
    let in_cell (k v : R) := k - / 2 <= v / (threshold * 0.75) < k + / 2 in
    exists kx ky kz : Z,
      voxel_key threshold c = (Index kx, Index ky, Index kz) /\
      in_cell (IZR kx) (Convergence.x c) /\
      in_cell (IZR ky) (Convergence.y c) /\
      in_cell (IZR kz) (Convergence.z c).
Proof.
  intros Ht cs. split; [apply dedupe_keep_first |].
  split; [| intros c; now apply voxel_key_cell].
  unfold detectConvergenceAtTime. fold cs. now rewrite dedupe_keep_first.
Qed.

(** ** Running the detector on flat streams *)

Lemma pair_body_far sliceDu t a b :
  Rabs (StreamPoint.u (point a) - StreamPoint.u (point b)) > sliceDu ->
  pair_body sliceDu t a b = [].
Proof.
  intros H. unfold pair_body. now destruct (Rgt_dec _ sliceDu).
Qed.

Lemma pair_body_same_id sliceDu t a b :
  streamId a = streamId b -> pair_body sliceDu t a b = [].
Proof.
  intros H. unfold pair_body. destruct (Rgt_dec _ sliceDu); [reflexivity |].
  now destruct (string_dec _ _).
Qed.

Lemma pair_body_hit sliceDu t a b :
  Rabs (StreamPoint.u (point a) - StreamPoint.u (point b)) <= sliceDu ->
  streamId a <> streamId b ->
  dist2 a b <= t * t ->
  pair_body sliceDu t a b = [midpoint_event a b].
Proof.
  intros Hu Hid Hd. unfold pair_body.
  destruct (Rgt_dec _ sliceDu); [lra |].
  destruct (string_dec _ _); [contradiction |].
  now destruct (Rle_dec _ _).
Qed.

Lemma pair_body_miss sliceDu t a b :
  dist2 a b > t * t -> pair_body sliceDu t a b = [].
Proof.
  intros Hd. unfold pair_body.
  destruct (Rgt_dec _ sliceDu); [reflexivity |].
  destruct (string_dec _ _); [reflexivity |].
  destruct (Rle_dec _ _); [lra | reflexivity].
Qed.

Lemma flat_point_x u tau f b :
  point_x u tau (flat_params f) b = w b * (u - 0.5).
Proof. unfold point_x. cbn. ring. Qed.

Lemma flat_point_y u tau f b :
  point_y u tau (flat_params f) b = cos ((u * 1.2 + tau * 0.07) * PI * 2) * 10.
Proof. unfold point_y. cbn. ring. Qed.

Lemma flat_point_z u tau f b : point_z u tau (flat_params f) b = 0.
Proof. unfold point_z. cbn. ring. Qed.

Lemma flat_point_intensity u f :
  point_intensity u 0 (flat_params f) = 0.5 + 0.5 * sin (u * f * (2 * PI)).
Proof.
  unfold point_intensity. cbn.
  replace ((u * (f + 0) + 0 * 0.2) * PI * 2 + 0 * 0.5 + 0 * 0.5)
    with (u * f * (2 * PI)) by ring.
  reflexivity.
Qed.

(** Side conditions of the scan on concrete samples. *)
Ltac scan_abs := cbn; unfold Rabs; destruct (Rcase_abs _); lra.

Ltac bound_cos :=
  repeat match goal with
         | |- context [cos ?a] =>
             let c := fresh "c" in
             pose proof (COS_bound a); set (c := cos a) in *; clearbody c
         end.

Ltac scan_dist :=
  unfold dist2; cbn;
  rewrite ?flat_point_x, ?flat_point_y, ?flat_point_z; cbn;
  bound_cos; nra.

Ltac scan_step :=
  match goal with
  | |- context [pair_body ?du ?t ?a ?b] =>
      first
        [ rewrite (pair_body_same_id du t a b) by reflexivity
        | rewrite (pair_body_far du t a b) by scan_abs
        | rewrite (pair_body_hit du t a b)
            by first [scan_abs | discriminate | scan_dist] ]
  end.

Lemma buildStreamPointsAtTime_2 p b tau :
  buildStreamPointsAtTime p b 2 tau
  = [pointOnStream (0 / 2) tau p b; pointOnStream (1 / 2) tau p b;
     pointOnStream (2 / 2) tau p b].
Proof. reflexivity. Qed.

Lemma buildStreamPointsAtTime_1 p b tau :
  buildStreamPointsAtTime p b 1 tau
  = [pointOnStream (0 / 1) tau p b; pointOnStream (1 / 1) tau p b].
Proof. reflexivity. Qed.

Lemma twin_candidates :
  candidates 0 0 100 2 twin_bounds twin_streams
  = [twin_event 0; twin_event 1; twin_event 2].
Proof.
  unfold candidates, all_samples, stream_samples, twin_streams.
  cbn [flat_map map app]. rewrite !buildStreamPointsAtTime_2.
  cbn [map app outer_loop inner_loop].
  repeat scan_step. reflexivity.
Qed.

Lemma twin_event_x i :
  Convergence.x (twin_event i) = 75 * (IZR i / 2 - 0.5).
Proof. cbn. rewrite flat_point_x. cbn. lra. Qed.

Lemma twin_event_y i :
  Convergence.y (twin_event i) = cos ((IZR i / 2 * 1.2 + 0 * 0.07) * PI * 2) * 10.
Proof. cbn. rewrite flat_point_y. lra. Qed.

Lemma twin_event_z i : Convergence.z (twin_event i) = 0.
Proof. cbn. rewrite flat_point_z. lra. Qed.

Lemma twin_event_u i : Convergence.u (twin_event i) = IZR i / 2.
Proof. cbn. lra. Qed.

Lemma twin_event_strength i : Convergence.strength (twin_event i) = 0.5.
Proof.
  cbn. rewrite flat_point_intensity.
  replace (IZR i / 2 * 0 * (2 * PI)) with 0 by ring. rewrite sin_0. lra.
Qed.

Ltac seen_step :=
  match goal with
  | |- context [decide (?k ∈ ?s)] =>
      destruct (decide (k ∈ s)); try (exfalso; set_unfold; intuition congruence)
  end.

Ltac round_eq := apply Math_round_unique; cbn; bound_cos; lra.

Lemma twin_keys :
  voxel_key 100 (twin_event 0) = (Index 0, Index 0, Index 0) /\
  voxel_key 100 (twin_event 1) = (Index 0, Index 0, Index 0) /\
  voxel_key 100 (twin_event 2) = (Index 1, Index 0, Index 0).
Proof.
  unfold voxel_key. rewrite !cell_index_nonzero by lra.
  rewrite !twin_event_x, !twin_event_y, !twin_event_z.
  repeat split; repeat f_equal; round_eq.
Qed.

Lemma twin_deduped :
  dedupe 100 (candidates 0 0 100 2 twin_bounds twin_streams)
  = [twin_event 0; twin_event 2].
Proof.
  rewrite twin_candidates.
  destruct twin_keys as (K0 & K1 & K2).
  unfold dedupe. cbn [dedupe_loop]. rewrite K0, K1, K2.
  repeat seen_step. reflexivity.
Qed.

Lemma round_half_away_small (v : R) :
  - / 2 < v < / 2 -> round_half_away v = 0%Z.
Proof.
  intros Hv. unfold round_half_away. destruct (Rle_dec 0 v).
  - symmetry. apply Int_part_spec. cbn. lra.
  - rewrite <- (Int_part_spec (- v + / 2) 0); [reflexivity | cbn; lra].
Qed.

Lemma round_half_away_neg (v : R) (n : Z) :
  v < 0 -> IZR n - / 2 < v <= IZR n + / 2 -> round_half_away v = n.
Proof.
  intros Hneg Hv. unfold round_half_away. destruct (Rle_dec 0 v); [lra |].
  rewrite <- (Int_part_spec (- v + / 2) (- n)); [lia |].
  rewrite opp_IZR. lra.
Qed.

Lemma round_half_away_nonneg (v : R) (n : Z) :
  0 <= v -> IZR n - / 2 <= v < IZR n + / 2 -> round_half_away v = n.
Proof.
  intros Hpos Hv. unfold round_half_away. destruct (Rle_dec 0 v); [| lra].
  symmetry. apply Int_part_spec. lra.
Qed.

(** On a tie below zero the two roundings part. *)
Example Math_round_minus_half : Math_round (- 0.5) = 0%Z.
Proof. apply Math_round_unique. cbn. lra. Qed.

Example round_half_away_minus_half : round_half_away (- 0.5) = (-1)%Z.
Proof. apply round_half_away_neg; cbn; lra. Qed.

Lemma twin_spec_keys :
  spec_voxel_key 100 (twin_event 0) = (-1, 0, 0)%Z /\
  spec_voxel_key 100 (twin_event 1) = (0, 0, 0)%Z /\
  spec_voxel_key 100 (twin_event 2) = (1, 0, 0)%Z.
Proof.
  unfold spec_voxel_key.
  rewrite !twin_event_x, !twin_event_y, !twin_event_z.
  repeat split; repeat f_equal;
    try (apply round_half_away_small; cbn; bound_cos; lra).
  - apply round_half_away_neg; cbn; lra.
  - apply round_half_away_nonneg; cbn; lra.
Qed.

Lemma keep_first_3_distinct {A K : Type} `{EqDecision K} (key : A -> K)
    (a b c : A) :
  key a <> key b -> key a <> key c -> key b <> key c ->
  keep_first key [a; b; c] = [a; b; c].
Proof.
  intros Hab Hac Hbc. unfold keep_first.
  cbn [length seq combine List.filter firstn existsb fst snd negb orb map].
  rewrite (bool_decide_eq_false_2 _ Hab), (bool_decide_eq_false_2 _ Hac),
    (bool_decide_eq_false_2 _ Hbc).
  reflexivity.
Qed.

(** C4, counterexample.  Twin streams, threshold 100, width 75: the
    candidate at [u = 0] has [x / voxel = -0.5], which the code sends to
    cell 0, the cell of the candidate at [u = 0.5], so the latter is
    dropped; rounding half away from zero would send it to cell -1 and keep
    all three. *)
Lemma dedupe_half_away_counterexample :
  dedupe 100 (candidates 0 0 100 2 twin_bounds twin_streams)
  <> spec_dedupe 100 (candidates 0 0 100 2 twin_bounds twin_streams).
Proof.
  rewrite twin_deduped, twin_candidates. unfold spec_dedupe.
  destruct twin_spec_keys as (K0 & K1 & K2).
  rewrite keep_first_3_distinct by (rewrite ?K0, ?K1, ?K2; discriminate).
  discriminate.
Qed.

Lemma dedupe_first_per_cell_witness :
  dedupe 100 (candidates 0 0 100 2 twin_bounds twin_streams)
  = keep_first (voxel_key 100) (candidates 0 0 100 2 twin_bounds twin_streams).
Proof.
  apply (dedupe_first_per_cell twin_streams 0 0 100 2 twin_bounds). lra.
Defined.

(** ** From the deduplicated list to the result *)

Lemma detect_short (streams : list StreamData) tau sliceDu threshold steps
    bounds :
  let deduped :=
    dedupe threshold (candidates tau sliceDu threshold steps bounds streams) in
  (length deduped <= 200)%nat ->
  forall e,
    In e (detectConvergenceAtTime streams tau sliceDu threshold steps bounds)
    <-> In e deduped.
Proof.
  intros deduped Hlen e. unfold detectConvergenceAtTime. fold deduped.
  rewrite firstn_all2.
  - split; apply Permutation_in;
      [apply js_sort_perm | symmetry; apply js_sort_perm].
  - now rewrite (Permutation_length (js_sort_perm deduped)).
Qed.

(** C5, counterexample.  Twin streams coincide at the three sampled values
    of [u], yet the result has no event at [u = 1/2]: it fell into the voxel
    cell of the event at [u = 0]. *)
Lemma twin_streams_counterexample :
  ~ (forall i : Z, (0 <= i <= 2)%Z ->
       exists e,
         In e (detectConvergenceAtTime twin_streams 0 0 100 2 twin_bounds) /\
         Convergence.u e = IZR i / IZR 2).
Proof.
  intros Hall. destruct (Hall 1%Z ltac:(lia)) as (e & He & Hu).
  apply detect_short in He; [| rewrite twin_deduped; cbn; lia].
  rewrite twin_deduped in He.
  destruct He as [<- | [<- | []]]; rewrite twin_event_u in Hu; lra.
Qed.

(** ** The scan, pair by pair *)

Section ScanPairs.
Variables (sliceDu threshold : R).

Lemma pair_body_close a b :
  close_pair sliceDu threshold a b ->
  pair_body sliceDu threshold a b = [midpoint_event a b].
Proof. intros (Hid & Hu & Hd). now apply pair_body_hit. Qed.

Lemma pair_body_not_close a b :
  ~ close_pair sliceDu threshold a b ->
  pair_body sliceDu threshold a b = [].
Proof.
  intros Hn. unfold pair_body.
  destruct (Rgt_dec _ sliceDu) as [Hgt | Hle]; [reflexivity |].
  destruct (string_dec _ _) as [Heq | Hne]; [reflexivity |].
  destruct (Rle_dec _ _) as [Hd | Hd]; [| reflexivity].
  exfalso. apply Hn. repeat split; [exact Hne | lra | exact Hd].
Qed.

Lemma close_pair_dec a b :
  {close_pair sliceDu threshold a b} + {~ close_pair sliceDu threshold a b}.
Proof.
  unfold close_pair.
  destruct (string_dec (streamId a) (streamId b)) as [Heq | Hne];
    [right; tauto |].
  destruct (Rle_dec (Rabs (StreamPoint.u (point a) - StreamPoint.u (point b)))
              sliceDu) as [Hu | Hu]; [| right; tauto].
  destruct (Rle_dec (dist2 a b) (threshold * threshold)) as [Hd | Hd];
    [left | right]; tauto.
Qed.

(** The inner loop emits, in order, one event for each later sample that
    is close to [a]. *)
Lemma inner_loop_hits a rest :
  exists js : list nat,
    inner_loop sliceDu threshold a rest
    = map (fun j => midpoint_event a (nth j rest no_sample)) js /\
    List.NoDup js /\
    forall j, In j js <->
      (j < length rest)%nat /\
      close_pair sliceDu threshold a (nth j rest no_sample).
Proof.
  induction rest as [| b rest (js & Heq & Hnd & Hin)].
  - exists []. split; [reflexivity |]. split; [constructor |].
    intros j. cbn. split; [tauto | lia].
  - destruct (close_pair_dec a b) as [Hc | Hc].
    + exists (0%nat :: map S js). cbn [inner_loop map nth].
      rewrite (pair_body_close _ _ Hc), Heq, map_map. cbn [app].
      split; [reflexivity |]. split.
      * constructor.
        -- rewrite in_map_iff. intros (j & Hj & _). discriminate.
        -- apply Finite.Injective_map_NoDup; [| exact Hnd].
           intros j1 j2. lia.
      * intros [| j]; cbn [In length nth].
        -- split; [intros _; split; [lia | exact Hc] | now left].
        -- rewrite in_map_iff. split.
           ++ intros [Hj | (j' & Hj' & Hin')]; [discriminate |].
              injection Hj' as ->. apply Hin in Hin'. split; [lia | tauto].
           ++ intros [Hlt Hcl]. right. exists j. split; [reflexivity |].
              apply Hin. split; [lia | exact Hcl].
    + exists (map S js). cbn [inner_loop map nth].
      rewrite (pair_body_not_close _ _ Hc), Heq, map_map. cbn [app].
      split; [reflexivity |]. split.
      * apply Finite.Injective_map_NoDup; [| exact Hnd].
        intros j1 j2. lia.
      * intros [| j]; cbn [In length nth]; rewrite in_map_iff.
        -- split; [intros (j' & Hj' & _); discriminate | tauto].
        -- split.
           ++ intros (j' & Hj' & Hin'). injection Hj' as ->.
              apply Hin in Hin'. split; [lia | tauto].
           ++ intros [Hlt Hcl]. exists j. split; [reflexivity |].
              apply Hin. split; [lia | exact Hcl].
Qed.

(** The whole scan emits, in order, one event for each pair of positions
    [i < j] whose samples are close. *)
Lemma outer_loop_hits all :
  exists hits : list (nat * nat),
    outer_loop sliceDu threshold all
    = map (fun ij => midpoint_event (nth ij.1 all no_sample)
                       (nth ij.2 all no_sample)) hits /\
    List.NoDup hits /\
    forall i j, In (i, j) hits <->
      (i < j < length all)%nat /\
      close_pair sliceDu threshold (nth i all no_sample) (nth j all no_sample).
Proof.
  induction all as [| a rest (hits & Heq & Hnd & Hin)].
  - exists []. split; [reflexivity |]. split; [constructor |].
    intros i j. cbn. split; [tauto | lia].
  - destruct (inner_loop_hits a rest) as (js & Hjs & Hjnd & Hjin).
    exists (map (fun j => (0%nat, S j)) js
            ++ map (fun ij => (S ij.1, S ij.2)) hits).
    split; [| split].
    + cbn [outer_loop]. rewrite Hjs, Heq, map_app, !map_map. reflexivity.
    + apply List.NoDup_app.
      * apply Finite.Injective_map_NoDup; [| exact Hjnd].
        intros j1 j2 Hj. injection Hj. lia.
      * apply Finite.Injective_map_NoDup; [| exact Hnd].
        intros [i1 j1] [i2 j2] Hij. cbn in Hij. injection Hij. intros.
        f_equal; lia.
      * intros ij. rewrite !in_map_iff.
        intros (j & <- & _) ([i' j'] & Hij & _). discriminate.
    + intros i j. rewrite in_app_iff, !in_map_iff. split.
      * intros [(j' & Hj' & Hin') | ([i' j'] & Hij & Hin')].
        -- injection Hj' as <- <-. apply Hjin in Hin' as [Hlt Hcl].
           cbn [length nth]. split; [lia | exact Hcl].
        -- cbn in Hij. injection Hij as <- <-.
           apply Hin in Hin' as [Hlt Hcl].
           cbn [length nth]. split; [lia | exact Hcl].
      * intros [Hlt Hcl]. destruct j as [| j]; [lia |].
        destruct i as [| i]; cbn [length nth] in *.
        -- left. exists j. split; [reflexivity |].
           apply Hjin. split; [lia | exact Hcl].
        -- right. exists (i, j). split; [reflexivity |].
           apply Hin. split; [lia | exact Hcl].
Qed.
End ScanPairs.

(** ** The samples, stream by stream *)

Lemma flat_map_blocks_length {A B} (f : A -> list B) (n : nat) (l : list A) :
  (forall a, length (f a) = n) ->
  length (flat_map f l) = (length l * n)%nat.
Proof.
  intros Hf. induction l as [| a l IH]; [reflexivity |].
  cbn [flat_map length]. rewrite length_app, Hf, IH. lia.
Qed.

Lemma nth_flat_map_blocks {A B} (f : A -> list B) (n : nat) (l : list A)
    (dA : A) (dB : B) (i : nat) :
  (forall a, length (f a) = n) ->
  (i < length l * n)%nat ->
  nth i (flat_map f l) dB = nth (i mod n) (f (nth (i / n) l dA)) dB.
Proof.
  intros Hf. revert i. induction l as [| a l IH]; intros i Hi.
  - cbn in Hi. lia.
  - cbn [flat_map length] in *.
    assert (Hn : n <> 0%nat) by (intros ->; lia).
    destruct (Nat.lt_ge_cases i n) as [Hlt | Hge].
    + rewrite app_nth1 by (now rewrite Hf).
      rewrite Nat.div_small, Nat.mod_small by exact Hlt. reflexivity.
    + rewrite app_nth2 by (now rewrite Hf). rewrite Hf.
      rewrite IH by lia.
      replace i with ((i - n) + 1 * n)%nat at 3 4 by lia.
      rewrite Nat.div_add, Nat.Div0.mod_add by exact Hn.
      replace ((i - n) / n + 1)%nat with (S ((i - n) / n)) by lia.
      reflexivity.
Qed.

Section Samples.
Variables (tau : R) (steps : Z) (bounds : Bounds).
Hypothesis steps_pos : (1 <= steps)%Z.

Let n := Z.to_nat (steps + 1).

Lemma stream_samples_length (s : StreamData) :
  length (stream_samples tau steps bounds s) = n.
Proof.
  unfold stream_samples. rewrite length_map. apply buildStreamPointsAtTime_length.
Qed.

Lemma stream_samples_nth (s : StreamData) (k : nat) :
  (k < n)%nat ->
  nth k (stream_samples tau steps bounds s) no_sample
  = tag s (pointOnStream (IZR (Z.of_nat k) / IZR steps) tau (params s) bounds).
Proof.
  intros Hk. apply nth_error_nth. unfold stream_samples.
  apply map_nth_error. unfold buildStreamPointsAtTime.
  rewrite build_loop_nth by (subst n; lia). reflexivity.
Qed.

Lemma all_samples_length (streams : list StreamData) :
  length (all_samples tau steps bounds streams) = (length streams * n)%nat.
Proof. apply flat_map_blocks_length, stream_samples_length. Qed.

Lemma all_samples_nth (streams : list StreamData) (i : nat) :
  (i < length streams * n)%nat ->
  nth i (all_samples tau steps bounds streams) no_sample
  = let s := nth (i / n) streams no_stream in
    tag s (pointOnStream (IZR (Z.of_nat (i mod n)) / IZR steps) tau
             (params s) bounds).
Proof.
  intros Hi. unfold all_samples.
  rewrite (nth_flat_map_blocks _ n streams no_stream)
    by (auto using stream_samples_length).
  apply stream_samples_nth. apply Nat.mod_upper_bound. subst n. lia.
Qed.

Lemma owner_lt (streams : list StreamData) (i : nat) :
  (i < length streams * n)%nat -> (i / n < length streams)%nat.
Proof.
  intros Hi. apply Nat.Div0.div_lt_upper_bound. lia.
Qed.

Lemma same_owner_iff (streams : list StreamData) (i j : nat) :
  List.NoDup (map id streams) ->
  (i < length streams * n)%nat -> (j < length streams * n)%nat ->
  id (nth (i / n) streams no_stream) = id (nth (j / n) streams no_stream)
  <-> (i / n = j / n)%nat.
Proof.
  intros Hnd Hi Hj. split; [| now intros ->].
  intros Heq.
  apply (proj1 (NoDup_nth (map id streams) (id no_stream)) Hnd);
    rewrite ?length_map; auto using owner_lt.
  now rewrite !map_nth.
Qed.
End Samples.

Lemma inner_loop_same_id sliceDu threshold a rest :
  (forall b, In b rest -> streamId a = streamId b) ->
  inner_loop sliceDu threshold a rest = [].
Proof.
  induction rest as [| b rest IH]; intros Hsame; [reflexivity |].
  cbn [inner_loop].
  rewrite (pair_body_same_id _ _ a b) by (apply Hsame; now left).
  apply IH. intros b' Hb'. apply Hsame. now right.
Qed.

Lemma outer_loop_same_id sliceDu threshold (name : string) all :
  (forall a, In a all -> streamId a = name) ->
  outer_loop sliceDu threshold all = [].
Proof.
  induction all as [| a rest IH]; intros Hsame; [reflexivity |].
  cbn [outer_loop]. rewrite inner_loop_same_id, IH; [reflexivity | |].
  - intros a' Ha'. apply Hsame. now right.
  - intros b Hb. rewrite (Hsame a) by now left.
    symmetry. apply Hsame. now right.
Qed.

(** C1, as the code has it.  For a segment count of at least 1: the
    sample at position [i] of the scan is the point of stream number
    [i / (steps + 1)] at path coordinate [(i mod (steps + 1)) / steps],
    tagged with that stream's identifier.  The candidate list is, in scan
    order, the image of a duplicate-free list of position pairs [i < j]:
    exactly the pairs whose owners have different identifiers, whose path
    coordinates differ by at most [sliceDu] and whose positions have a
    squared Euclidean distance of at most [threshold^2].  The event of a
    pair is the midpoint of the two positions, with the mean intensity, the
    mean path coordinate and the two owners' identifiers.  When the
    identifiers of the input are pairwise distinct, the owners have
    different identifiers exactly when they are different streams. *)
Theorem candidates_exactly_close_pairs (streams : list StreamData)
    (tau sliceDu threshold : R) (steps : Z) (bounds : Bounds) :
  (1 <= steps)%Z ->
  let n := Z.to_nat (steps + 1) in
  let all := all_samples tau steps bounds streams in
  let owner (i : nat) := nth (i / n) streams no_stream in
  let sample (i : nat) := nth i all no_sample in
  let u_at (i : nat) := IZR (Z.of_nat (i mod n)) / IZR steps in
  let position (i : nat) :=
    pointOnStream (u_at i) tau (params (owner i)) bounds in
  length all = (length streams * n)%nat /\
  (forall i, (i < length all)%nat ->
     point (sample i) = position i /\
     streamId (sample i) = id (owner i) /\
     StreamPoint.u (position i) = u_at i) /\
  (List.NoDup (map id streams) ->
   forall i j, (i < length all)%nat -> (j < length all)%nat ->
     id (owner i) <> id (owner j) <-> (i / n)%nat <> (j / n)%nat) /\
  exists hits : list (nat * nat),
    candidates tau sliceDu threshold steps bounds streams
    = map (fun ij => midpoint_event (sample ij.1) (sample ij.2)) hits /\
    List.NoDup hits /\
    (forall i j, In (i, j) hits <->
       (i < j < length all)%nat /\
       id (owner i) <> id (owner j) /\
       Rabs (u_at i - u_at j) <= sliceDu /\
       (StreamPoint.x (position i) - StreamPoint.x (position j))
         * (StreamPoint.x (position i) - StreamPoint.x (position j))
       + (StreamPoint.y (position i) - StreamPoint.y (position j))
         * (StreamPoint.y (position i) - StreamPoint.y (position j))
       + (StreamPoint.z (position i) - StreamPoint.z (position j))
         * (StreamPoint.z (position i) - StreamPoint.z (position j))
       <= threshold * threshold) /\
    (forall i j, In (i, j) hits ->
       let a := position i in
       let b := position j in
       let e := midpoint_event (sample i) (sample j) in
       Convergence.x e = (StreamPoint.x a + StreamPoint.x b) / 2 /\
       Convergence.y e = (StreamPoint.y a + StreamPoint.y b) / 2 /\
       Convergence.z e = (StreamPoint.z a + StreamPoint.z b) / 2 /\
       Convergence.strength e
         = (StreamPoint.intensity a + StreamPoint.intensity b) / 2 /\
       Convergence.u e = (u_at i + u_at j) / 2 /\
       Convergence.streams e = [id (owner i); id (owner j)]).
Proof.
  intros Hsteps n all owner sample u_at position.
  assert (Hlen : length all = (length streams * n)%nat)
    by (apply all_samples_length).
  assert (Hnth : forall i, (i < length all)%nat ->
            sample i = tag (owner i) (position i)).
  { intros i Hi. subst sample all position u_at. cbv beta.
    rewrite all_samples_nth; [reflexivity | exact Hsteps |].
    rewrite <- (all_samples_length tau steps bounds). exact Hi. }
  split; [exact Hlen |]. split.
  { intros i Hi. rewrite (Hnth i Hi). repeat split. }
  split.
  { intros Hnd i j Hi Hj. rewrite Hlen in Hi, Hj.
    pose proof (same_owner_iff steps streams i j Hnd Hi Hj) as Hso.
    change (id (owner i) = id (owner j) <-> (i / n = j / n)%nat) in Hso.
    tauto. }
  destruct (outer_loop_hits sliceDu threshold all) as (hits & Heq & Hhnd & Hin).
  exists hits. split; [exact Heq |]. split; [exact Hhnd |]. split.
  - intros i j. rewrite Hin. fold (sample i) (sample j). split.
    + intros (Hlt & Hc). rewrite (Hnth i), (Hnth j) in Hc by lia.
      destruct Hc as (Hne & Hu & Hd). split; [exact Hlt |].
      split; [exact Hne |]. split; [exact Hu | exact Hd].
    + intros (Hlt & Hne & Hu & Hd). split; [exact Hlt |].
      rewrite (Hnth i), (Hnth j) by lia.
      split; [exact Hne |]. split; [exact Hu | exact Hd].
  - intros i j Hij. apply Hin in Hij as (Hlt & _).
    cbv zeta. rewrite (Hnth i), (Hnth j) by lia.
    cbn [midpoint_event Convergence.x Convergence.y Convergence.z
           Convergence.strength Convergence.u Convergence.streams
           point streamId tag].
    subst position. cbn [pointOnStream StreamPoint.u].
    repeat split; lra.
Qed.

Lemma candidates_exactly_close_pairs_witness :
  length (all_samples 0 2 twin_bounds twin_streams) = 6%nat /\
  point (nth 4 (all_samples 0 2 twin_bounds twin_streams) no_sample)
  = pointOnStream (IZR 1 / IZR 2) 0 (flat_params 0) twin_bounds /\
  streamId (nth 4 (all_samples 0 2 twin_bounds twin_streams) no_sample) = "B".
Proof.
  destruct (candidates_exactly_close_pairs twin_streams 0 0 100 2 twin_bounds
              ltac:(lia)) as (Hlen & Hnth & _).
  split; [exact Hlen |].
  destruct (Hnth 4%nat ltac:(rewrite Hlen; cbn; lia)) as (Hp & Hid & _).
  split; [exact Hp | exact Hid].
Defined.

(** C1, counterexample.  Two streams that share the identifier A: the
    first sample of the one and the first sample of the other are samples
    of different streams, at the same path coordinate and the same place,
    yet the scan emits nothing, because it tells streams apart by their
    identifiers. *)
Lemma shared_identifier_counterexample :
  let all := all_samples 0 2 twin_bounds echo_streams in
  let p := pointOnStream (0 / 2) 0 (flat_params 0) twin_bounds in
  nth 0 all no_sample = tag (nth 0 echo_streams no_stream) p /\
  nth 3 all no_sample = tag (nth 1 echo_streams no_stream) p /\
  Rabs (StreamPoint.u p - StreamPoint.u p) <= 0 /\
  (StreamPoint.x p - StreamPoint.x p) * (StreamPoint.x p - StreamPoint.x p)
  + (StreamPoint.y p - StreamPoint.y p) * (StreamPoint.y p - StreamPoint.y p)
  + (StreamPoint.z p - StreamPoint.z p) * (StreamPoint.z p - StreamPoint.z p)
  <= 100 * 100 /\
  candidates 0 0 100 2 twin_bounds echo_streams = [].
Proof.
  cbv zeta. split; [reflexivity |]. split; [reflexivity |].
  split; [rewrite Rminus_diag, Rabs_R0; lra |].
  split; [rewrite !Rminus_diag; lra |].
  unfold candidates. apply (outer_loop_same_id _ _ "A").
  intros a Ha. unfold all_samples, echo_streams in Ha.
  rewrite in_flat_map in Ha. destruct Ha as (s & Hs & Ha).
  unfold stream_samples in Ha. rewrite in_map_iff in Ha.
  destruct Ha as (q & <- & _).
  destruct Hs as [<- | [<- | []]]; reflexivity.
Qed.

(** ** Every candidate has a representative of its cell *)

Lemma dedupe_loop_covers (threshold : R) (cs : list Convergence.t)
    (seen : gset (cell * cell * cell)) (acc : list Convergence.t) :
  (forall k, k ∈ seen -> exists d, In d acc /\ voxel_key threshold d = k) ->
  forall c, In c cs \/ In c acc ->
    exists d, In d (dedupe_loop threshold cs seen acc) /\
              voxel_key threshold d = voxel_key threshold c.
Proof.
  revert seen acc. induction cs as [| c0 cs IH]; intros seen acc Hseen c Hc.
  - destruct Hc as [[] | Hc]. now exists c.
  - cbn [dedupe_loop].
    destruct (decide (voxel_key threshold c0 ∈ seen)) as [Hin | Hout].
    + destruct Hc as [[<- | Hc] | Hc].
      * destruct (Hseen _ Hin) as (d0 & Hd0 & Hk0).
        destruct (IH seen acc Hseen d0 (or_intror Hd0)) as (d & Hd & Hk).
        exists d. split; [exact Hd | congruence].
      * apply (IH seen acc Hseen). now left.
      * apply (IH seen acc Hseen). now right.
    + assert (Hseen' : forall k, k ∈ ({[voxel_key threshold c0]} ∪ seen) ->
                exists d, In d (acc ++ [c0]) /\ voxel_key threshold d = k).
      { intros k. rewrite elem_of_union, elem_of_singleton.
        intros [-> | Hk].
        - exists c0. split; [| reflexivity]. apply in_or_app. right. now left.
        - destruct (Hseen k Hk) as (d & Hd & Hkd).
          exists d. split; [| exact Hkd]. apply in_or_app. now left. }
      apply (IH _ _ Hseen').
      destruct Hc as [[<- | Hc] | Hc].
      * right. apply in_or_app. right. now left.
      * now left.
      * right. apply in_or_app. now left.
Qed.

Lemma dedupe_covers (threshold : R) (cs : list Convergence.t) (c : Convergence.t) :
  In c cs ->
  exists d, In d (dedupe threshold cs) /\
            voxel_key threshold d = voxel_key threshold c.
Proof.
  intros Hc. unfold dedupe.
  apply (dedupe_loop_covers threshold cs ∅ []).
  - intros k Hk. exfalso. revert Hk. apply not_elem_of_empty.
  - left. exact Hc.
Qed.

(** C5, as the code has it.  Two streams with the same parameters and
    different identifiers, any time: for every sampled [u] the candidate
    list holds an event located at the common sample, whose strength is the
    intensity of that sample, and the deduplicated list holds an event of
    the same voxel cell. *)
Theorem identical_streams_candidates (p : StreamParams) (id1 id2 : string)
    (tau sliceDu threshold : R) (steps : Z) (bounds : Bounds) :
  id1 <> id2 -> 0 <= sliceDu -> (1 <= steps)%Z ->
  let streams := [{| id := id1; params := p |}; {| id := id2; params := p |}] in
  let cs := candidates tau sliceDu threshold steps bounds streams in
  forall i : Z, (0 <= i <= steps)%Z ->
    let s := pointOnStream (IZR i / IZR steps) tau p bounds in
    exists e : Convergence.t,
      In e cs /\
      Convergence.x e = StreamPoint.x s /\
      Convergence.y e = StreamPoint.y s /\
      Convergence.z e = StreamPoint.z s /\
      Convergence.u e = IZR i / IZR steps /\
      Convergence.strength e = StreamPoint.intensity s /\
      Convergence.streams e = [id1; id2] /\
      exists d : Convergence.t,
        In d (dedupe threshold cs) /\
        voxel_key threshold d = voxel_key threshold e.
Proof.
  intros Hid Hdu Hsteps streams cs i Hi s.
  set (n := Z.to_nat (steps + 1)).
  set (all := all_samples tau steps bounds streams).
  set (k := Z.to_nat i).
  assert (Hn : (Z.of_nat n = steps + 1)%Z) by (subst n; lia).
  assert (Hk : (k < n)%nat) by (subst k; lia).
  assert (Hik : IZR (Z.of_nat k) = IZR i) by (subst k; f_equal; lia).
  assert (Hlen : length all = (2 * n)%nat)
    by (subst all; rewrite all_samples_length; reflexivity).
  assert (Ha : nth k all no_sample = tag {| id := id1; params := p |} s).
  { subst all. rewrite (all_samples_nth tau steps bounds Hsteps streams k)
      by (cbn [length streams]; fold n; lia).
    fold n. rewrite Nat.div_small, Nat.mod_small by exact Hk.
    cbv zeta. cbn [nth streams params]. now rewrite Hik. }
  assert (Hb : nth (n + k) all no_sample
               = tag {| id := id2; params := p |} s).
  { subst all.
    rewrite (all_samples_nth tau steps bounds Hsteps streams (n + k))
      by (cbn [length streams]; fold n; lia).
    fold n.
    replace (n + k)%nat with (k + 1 * n)%nat by lia.
    rewrite Nat.div_add, Nat.Div0.mod_add by lia.
    rewrite Nat.div_small, Nat.mod_small by exact Hk.
    cbv zeta. cbn [nth streams params Nat.add]. now rewrite Hik. }
  destruct (outer_loop_hits sliceDu threshold all) as (hits & Heq & _ & Hin).
  assert (Hhit : In (k, (n + k)%nat) hits).
  { apply Hin. split; [lia |]. rewrite Ha, Hb. unfold close_pair, dist2.
    cbn [streamId point tag id].
    split; [exact Hid |]. split.
    - rewrite Rminus_diag, Rabs_R0. exact Hdu.
    - rewrite !Rminus_diag. nra. }
  set (e := midpoint_event (nth k all no_sample) (nth (n + k) all no_sample)).
  assert (He : In e cs).
  { subst cs. unfold candidates. fold all. rewrite Heq.
    apply (in_map (fun ij => midpoint_event (nth ij.1 all no_sample)
                               (nth ij.2 all no_sample)) hits _ Hhit). }
  exists e. split; [exact He |].
  assert (Hcover := dedupe_covers threshold cs e He).
  subst e. rewrite Ha, Hb in *.
  cbn [midpoint_event Convergence.x Convergence.y Convergence.z
         Convergence.strength Convergence.u Convergence.streams
         point streamId tag id] in *.
  subst s. cbn [pointOnStream StreamPoint.x StreamPoint.y StreamPoint.z
                  StreamPoint.u StreamPoint.intensity].
  split; [lra |]. split; [lra |]. split; [lra |]. split; [lra |].
  split; [lra |]. split; [reflexivity |]. exact Hcover.
Qed.

Lemma identical_streams_candidates_witness :
  exists e : Convergence.t,
    In e (candidates 0 0 100 2 twin_bounds twin_streams) /\
    Convergence.u e = 1 / 2.
Proof.
  destruct (identical_streams_candidates (flat_params 0) "A" "B" 0 0 100 2
              twin_bounds ltac:(discriminate) ltac:(lra) ltac:(lia)
              1%Z ltac:(lia)) as (e & He & _ & _ & _ & Hu & _).
  exists e. split; [exact He | exact Hu].
Defined.

(** ** Exchanging two streams *)

Lemma insert_perm_head {A} (l : list A) (j : nat) (a b : A) :
  nth_error l j = Some b ->
  Permutation (b :: <[j := a]> l) (a :: l).
Proof.
  revert j. induction l as [| c l IH]; intros [| j] Hj; try discriminate.
  - cbn in Hj. injection Hj as ->. cbn. apply perm_swap.
  - cbn in Hj. cbn [insert list_insert].
    change (list_insert j a l) with (<[j := a]> l).
    rewrite perm_swap. rewrite (IH j Hj). apply perm_swap.
Qed.

Lemma swap_perm {A} (l : list A) (i j : nat) (a b : A) :
  nth_error l i = Some a -> nth_error l j = Some b ->
  Permutation (<[i := b]> (<[j := a]> l)) l.
Proof.
  revert i j. induction l as [| c l IH]; intros [| i] [| j] Hi Hj;
    try discriminate; cbn in Hi, Hj.
  - injection Hi as ->. injection Hj as ->. reflexivity.
  - injection Hi as ->. cbn. change (list_insert j a l) with (<[j := a]> l).
    now apply insert_perm_head.
  - injection Hj as ->. cbn. change (list_insert i b l) with (<[i := b]> l).
    now apply insert_perm_head.
  - cbn. constructor. now apply IH.
Qed.

Lemma swap_streams_perm (i j : nat) (l : list StreamData) :
  Permutation l (swap_streams i j l).
Proof.
  unfold swap_streams.
  destruct (nth_error l i) as [a |] eqn:Hi; [| reflexivity].
  destruct (nth_error l j) as [b |] eqn:Hj; [| reflexivity].
  symmetry. now apply swap_perm.
Qed.

#[local] Instance same_report_equiv : Equivalence same_report.
Proof.
  split.
  - intros e. unfold same_report. tauto.
  - intros e1 e2 (Hx & Hy & Hz & Hs & Hst). unfold same_report.
    repeat split; try congruence.
    destruct Hst as [-> | ->]; [now left | right].
    now rewrite rev_involutive.
  - intros e1 e2 e3 (Hx & Hy & Hz & Hs & Hst) (Hx' & Hy' & Hz' & Hs' & Hst').
    unfold same_report. repeat split; try congruence.
    destruct Hst as [-> | ->]; destruct Hst' as [-> | ->]; auto.
    rewrite rev_involutive. now left.
Qed.

Section ScanSymmetry.
Variables (sliceDu threshold : R).

Lemma close_pair_sym a b :
  close_pair sliceDu threshold a b -> close_pair sliceDu threshold b a.
Proof.
  intros (Hid & Hu & Hd). repeat split.
  - congruence.
  - now rewrite Rabs_minus_sym.
  - unfold dist2 in *. nra.
Qed.

Lemma midpoint_event_sym a b :
  same_report (midpoint_event a b) (midpoint_event b a).
Proof.
  unfold same_report. cbn. repeat split; try lra. now right.
Qed.

Lemma pair_body_sym a b :
  PermutationA same_report (pair_body sliceDu threshold a b)
    (pair_body sliceDu threshold b a).
Proof.
  destruct (close_pair_dec sliceDu threshold a b) as [Hc | Hc].
  - rewrite (pair_body_close _ _ _ _ Hc),
      (pair_body_close _ _ _ _ (close_pair_sym _ _ Hc)).
    constructor; [apply midpoint_event_sym | constructor].
  - rewrite (pair_body_not_close _ _ _ _ Hc), pair_body_not_close.
    + constructor.
    + intros Hc'. apply Hc. now apply close_pair_sym.
Qed.

Lemma inner_loop_flat_map a rest :
  inner_loop sliceDu threshold a rest
  = flat_map (pair_body sliceDu threshold a) rest.
Proof. induction rest as [| b rest IH]; cbn; now rewrite ?IH. Qed.

Lemma inner_loop_perm a l l' :
  Permutation l l' ->
  Permutation (inner_loop sliceDu threshold a l)
    (inner_loop sliceDu threshold a l').
Proof.
  intros Hp. rewrite !inner_loop_flat_map. now apply Permutation_flat_map.
Qed.

(** The scan of a rearranged sample list emits the same reports, in
    another order. *)
Lemma outer_loop_perm l l' :
  Permutation l l' ->
  PermutationA same_report (outer_loop sliceDu threshold l)
    (outer_loop sliceDu threshold l').
Proof.
  induction 1 as [| a l l' Hp IH | a b l | l1 l2 l3 _ IH1 _ IH2].
  - constructor.
  - cbn [outer_loop]. apply PermutationA_app; [typeclasses eauto | | exact IH].
    apply Permutation_PermutationA; [typeclasses eauto |].
    now apply inner_loop_perm.
  - cbn [outer_loop inner_loop]. rewrite <- !app_assoc.
    apply PermutationA_app; [typeclasses eauto | apply pair_body_sym |].
    apply Permutation_PermutationA; [typeclasses eauto |].
    rewrite !app_assoc. apply Permutation_app_tail, Permutation_app_comm.
  - etransitivity; eassumption.
Qed.
End ScanSymmetry.

(** C3, as the code has it.  Exchanging two streams of the input leaves the
    candidate list unchanged up to the order of its events and the order of
    the two identifiers inside an event: the same (stream pair, position,
    strength) tuples, each as many times. *)
Theorem candidates_swap_streams (streams : list StreamData) (i j : nat)
    (tau sliceDu threshold : R) (steps : Z) (bounds : Bounds) :
  PermutationA same_report
    (candidates tau sliceDu threshold steps bounds streams)
    (candidates tau sliceDu threshold steps bounds (swap_streams i j streams)).
Proof.
  unfold candidates. apply outer_loop_perm.
  unfold all_samples. apply Permutation_flat_map, swap_streams_perm.
Qed.

(** ** Two streams that differ in intensity only *)

Lemma duo_candidates :
  candidates 0 1 100 1 duo_bounds duo_streams
  = [midpoint_event (duo_sample "A" 0.25 0) (duo_sample "B" 0 0);
     midpoint_event (duo_sample "A" 0.25 0) (duo_sample "B" 0 1);
     midpoint_event (duo_sample "A" 0.25 1) (duo_sample "B" 0 0);
     midpoint_event (duo_sample "A" 0.25 1) (duo_sample "B" 0 1)].
Proof.
  unfold candidates, all_samples, stream_samples, duo_streams.
  cbn [flat_map map app]. rewrite !buildStreamPointsAtTime_1.
  cbn [map app outer_loop inner_loop].
  repeat scan_step. reflexivity.
Qed.

Lemma duo_candidates_swapped :
  candidates 0 1 100 1 duo_bounds (swap_streams 0 1 duo_streams)
  = [midpoint_event (duo_sample "B" 0 0) (duo_sample "A" 0.25 0);
     midpoint_event (duo_sample "B" 0 0) (duo_sample "A" 0.25 1);
     midpoint_event (duo_sample "B" 0 1) (duo_sample "A" 0.25 0);
     midpoint_event (duo_sample "B" 0 1) (duo_sample "A" 0.25 1)].
Proof.
  change (swap_streams 0 1 duo_streams)
    with [flat_stream "B" 0; flat_stream "A" 0.25].
  unfold candidates, all_samples, stream_samples.
  cbn [flat_map map app]. rewrite !buildStreamPointsAtTime_1.
  cbn [map app outer_loop inner_loop].
  repeat scan_step. reflexivity.
Qed.

Lemma duo_event_x n1 f1 i1 n2 f2 i2 :
  Convergence.x (midpoint_event (duo_sample n1 f1 i1) (duo_sample n2 f2 i2))
  = 45 * (IZR i1 + IZR i2 - 1).
Proof. cbn. rewrite !flat_point_x. cbn. lra. Qed.

Lemma duo_event_y n1 f1 i1 n2 f2 i2 :
  - 10 <= Convergence.y
            (midpoint_event (duo_sample n1 f1 i1) (duo_sample n2 f2 i2)) <= 10.
Proof.
  cbn. rewrite !flat_point_y. bound_cos. lra.
Qed.

Lemma duo_event_z n1 f1 i1 n2 f2 i2 :
  Convergence.z (midpoint_event (duo_sample n1 f1 i1) (duo_sample n2 f2 i2))
  = 0.
Proof. cbn. rewrite !flat_point_z. lra. Qed.

Lemma duo_key n1 f1 i1 n2 f2 i2 :
  (0 <= i1 <= 1)%Z -> (0 <= i2 <= 1)%Z ->
  voxel_key 100 (midpoint_event (duo_sample n1 f1 i1) (duo_sample n2 f2 i2))
  = (Index (i1 + i2 - 1), Index 0, Index 0).
Proof.
  intros H1 H2. unfold voxel_key. rewrite !cell_index_nonzero by lra.
  pose proof (duo_event_y n1 f1 i1 n2 f2 i2) as Hy.
  rewrite duo_event_x, duo_event_z.
  assert (Hcases : (i1 + i2 - 1 = -1 \/ i1 + i2 - 1 = 0 \/ i1 + i2 - 1 = 1)%Z)
    by lia.
  repeat f_equal.
  - apply Math_round_unique.
    replace (IZR i1 + IZR i2 - 1) with (IZR (i1 + i2 - 1))
      by (rewrite minus_IZR, plus_IZR; reflexivity).
    destruct Hcases as [-> | [-> | ->]]; cbn; lra.
  - apply Math_round_unique. cbn in *. lra.
  - apply Math_round_unique. cbn. lra.
Qed.

Ltac norm_cells :=
  repeat match goal with
         | |- context [(?a + ?b - 1)%Z] =>
             let v := eval compute in (a + b - 1)%Z in
             change (a + b - 1)%Z with v
         end.

Lemma duo_deduped :
  dedupe 100 (candidates 0 1 100 1 duo_bounds duo_streams)
  = [midpoint_event (duo_sample "A" 0.25 0) (duo_sample "B" 0 0);
     midpoint_event (duo_sample "A" 0.25 0) (duo_sample "B" 0 1);
     midpoint_event (duo_sample "A" 0.25 1) (duo_sample "B" 0 1)].
Proof.
  rewrite duo_candidates. unfold dedupe. cbn [dedupe_loop].
  rewrite !duo_key by lia. norm_cells.
  repeat seen_step. reflexivity.
Qed.

Lemma duo_deduped_swapped :
  dedupe 100 (candidates 0 1 100 1 duo_bounds (swap_streams 0 1 duo_streams))
  = [midpoint_event (duo_sample "B" 0 0) (duo_sample "A" 0.25 0);
     midpoint_event (duo_sample "B" 0 0) (duo_sample "A" 0.25 1);
     midpoint_event (duo_sample "B" 0 1) (duo_sample "A" 0.25 1)].
Proof.
  rewrite duo_candidates_swapped. unfold dedupe. cbn [dedupe_loop].
  rewrite !duo_key by lia. norm_cells.
  repeat seen_step. reflexivity.
Qed.

Ltac sample_intensity :=
  unfold duo_sample;
  cbn [point tag StreamPoint.intensity pointOnStream];
  rewrite flat_point_intensity.

Lemma duo_intensity_A1 :
  StreamPoint.intensity (point (duo_sample "A" 0.25 1)) = 1.
Proof.
  sample_intensity.
  replace (1 / 1 * 0.25 * (2 * PI)) with (PI / 2) by lra.
  rewrite sin_PI2. lra.
Qed.

Lemma duo_intensity_0 n f :
  StreamPoint.intensity (point (duo_sample n f 0)) = 0.5.
Proof.
  sample_intensity.
  replace (0 / 1 * f * (2 * PI)) with 0 by lra.
  rewrite sin_0. lra.
Qed.

Lemma duo_intensity_B i :
  StreamPoint.intensity (point (duo_sample "B" 0 i)) = 0.5.
Proof.
  sample_intensity.
  replace (IZR i / 1 * 0 * (2 * PI)) with 0 by lra.
  rewrite sin_0. lra.
Qed.

(** C3, counterexample.  Streams A and B run along the same curve, A
    brighter at its end.  The midpoints of (A at 0, B at 1) and of (A at 1,
    B at 0) coincide; deduplication keeps whichever the scan meets first:
    strength 0.5 with A first, strength 0.75 with B first. *)
Lemma swap_streams_counterexample :
  ~ same_reports
      (detectConvergenceAtTime duo_streams 0 1 100 1 duo_bounds)
      (detectConvergenceAtTime (swap_streams 0 1 duo_streams) 0 1 100 1
         duo_bounds).
Proof.
  intros [_ Hback].
  destruct (Hback (midpoint_event (duo_sample "B" 0 0) (duo_sample "A" 0.25 1)))
    as (e' & He' & Hx & _ & _ & Hs & _).
  - apply detect_short; rewrite duo_deduped_swapped; cbn; [lia | tauto].
  - apply detect_short in He'; [| rewrite duo_deduped; cbn; lia].
    rewrite duo_deduped in He'.
    assert (Hstr : Convergence.strength
                     (midpoint_event (duo_sample "B" 0 0) (duo_sample "A" 0.25 1))
                   = 0.75).
    { cbn [midpoint_event Convergence.strength].
      rewrite duo_intensity_B, duo_intensity_A1. lra. }
    rewrite Hstr in Hs. rewrite duo_event_x in Hx.
    destruct He' as [<- | [<- | [<- | []]]]; rewrite duo_event_x in Hx;
      cbn in Hx; try lra.
    cbn [midpoint_event Convergence.strength] in Hs.
    rewrite duo_intensity_0, duo_intensity_B in Hs. lra.
Qed.

(** * Further properties of the code *)

(** ** The remainder operator *)

Lemma floor_div_bounds (a b : R) :
  0 < b ->
  IZR (Math_floor (a / b)) * b <= a < (IZR (Math_floor (a / b)) + 1) * b.
Proof.
  intros Hb. pose proof (Math_floor_bounds (a / b)) as [Hlo Hhi].
  assert (Ha : a = a / b * b) by (field; lra).
  set (q := a / b) in *. clearbody q.
  set (k := IZR (Math_floor q)) in *. clearbody k.
  subst a. split; nra.
Qed.

Lemma floor_div_unique (a b : R) (n : Z) :
  0 < b -> IZR n * b <= a < (IZR n + 1) * b -> Math_floor (a / b) = n.
Proof.
  intros Hb [Hlo Hhi]. apply Math_floor_unique.
  assert (Ha : a = a / b * b) by (field; lra).
  set (q := a / b) in *. clearbody q. subst a. split.
  - apply (Rmult_le_reg_r b); [exact Hb | exact Hlo].
  - apply (Rmult_lt_reg_r b); [exact Hb | exact Hhi].
Qed.

Lemma js_trunc_nonneg (v : R) : 0 <= v -> js_trunc v = Math_floor v.
Proof. intros Hv. unfold js_trunc. now destruct (Rle_dec 0 v). Qed.

Lemma js_trunc_neg (v : R) : v < 0 -> js_trunc v = (- Math_floor (- v))%Z.
Proof.
  intros Hv. unfold js_trunc. destruct (Rle_dec 0 v); [lra | reflexivity].
Qed.

Lemma js_rem_nonneg (a b : R) :
  0 < b -> 0 <= a ->
  js_rem a b = a - b * IZR (Math_floor (a / b)) /\ 0 <= js_rem a b < b.
Proof.
  intros Hb Ha. unfold js_rem.
  assert (Hq : 0 <= a / b).
  { apply Rmult_le_pos; [exact Ha |]. apply Rlt_le, Rinv_0_lt_compat, Hb. }
  rewrite (js_trunc_nonneg _ Hq). split; [reflexivity |].
  pose proof (floor_div_bounds a b Hb). lra.
Qed.

Lemma js_rem_neg (a b : R) :
  0 < b -> a < 0 ->
  js_rem a b = a + b * IZR (Math_floor (- a / b)) /\ - b < js_rem a b <= 0.
Proof.
  intros Hb Ha. unfold js_rem.
  assert (Hq : a / b < 0).
  { assert (Hinv : 0 < / b) by (apply Rinv_0_lt_compat, Hb).
    unfold Rdiv. nra. }
  rewrite (js_trunc_neg _ Hq), opp_IZR.
  replace (- (a / b)) with (- a / b) by (field; lra).
  split; [lra |].
  pose proof (floor_div_bounds (- a) b Hb). lra.
Qed.

(** The idiom [((a % b) + b) % b] is the remainder of the floored
    division, for operands of either sign. *)
Lemma js_rem_wrap (a b : R) :
  0 < b ->
  js_rem (js_rem a b + b) b = a - b * IZR (Math_floor (a / b)).
Proof.
  intros Hb. destruct (Rle_lt_dec 0 a) as [Ha | Ha].
  - destruct (js_rem_nonneg a b Hb Ha) as [Heq Hr].
    destruct (js_rem_nonneg (js_rem a b + b) b Hb ltac:(lra)) as [Heq' _].
    rewrite Heq'. rewrite (floor_div_unique (js_rem a b + b) b 1 Hb) by lra.
    rewrite Heq. lra.
  - destruct (js_rem_neg a b Hb Ha) as [Heq Hr].
    pose proof (floor_div_bounds (- a) b Hb) as Hk.
    set (k := Math_floor (- a / b)) in *.
    destruct (js_rem_nonneg (js_rem a b + b) b Hb ltac:(lra)) as [Heq' _].
    rewrite Heq'. destruct (Req_dec (js_rem a b) 0) as [Hz | Hnz].
    + rewrite (floor_div_unique (js_rem a b + b) b 1 Hb) by lra.
      rewrite (floor_div_unique a b (- k) Hb) by (rewrite opp_IZR; lra).
      rewrite opp_IZR. lra.
    + rewrite (floor_div_unique (js_rem a b + b) b 0 Hb) by lra.
      rewrite (floor_div_unique a b (- k - 1) Hb)
        by (rewrite minus_IZR, opp_IZR; lra).
      rewrite minus_IZR, opp_IZR. lra.
Qed.

Lemma js_rem_wrap_range (a b : R) :
  0 < b -> 0 <= js_rem (js_rem a b + b) b < b.
Proof.
  intros Hb. rewrite (js_rem_wrap a b Hb).
  pose proof (floor_div_bounds a b Hb). lra.
Qed.

(** ** [clamp] and [lerp] *)

Lemma clamp_cases (v lo hi : R) :
  clamp v lo hi
  = if Rle_dec lo v
    then (if Rle_dec hi v then hi else v)
    else (if Rle_dec hi lo then hi else lo).
Proof.
  unfold clamp, Rmax. destruct (Rle_dec lo v); unfold Rmin.
  - destruct (Rle_dec hi v); reflexivity.
  - destruct (Rle_dec hi lo); reflexivity.
Qed.

Ltac clamp_cases :=
  rewrite !clamp_cases;
  repeat match goal with
         | |- context [Rle_dec ?a ?b] => destruct (Rle_dec a b)
         end.

(** With ordered limits [clamp] returns a value between them, and leaves a
    value already between them unchanged. *)
Theorem clamp_in_range (v lo hi : R) :
  lo <= hi ->
  lo <= clamp v lo hi <= hi /\ (lo <= v <= hi -> clamp v lo hi = v).
Proof. intros Hlh. clamp_cases; split; lra. Qed.

Lemma clamp_in_range_witness :
  1 <= clamp 37 1 20 <= 20 /\ (1 <= 37 <= 20 -> clamp 37 1 20 = 37).
Proof. apply (clamp_in_range 37 1 20). lra. Defined.

Lemma clamp_le_upper (v lo hi : R) : clamp v lo hi <= hi.
Proof. clamp_cases; lra. Qed.

Lemma clamp_inverted (v lo hi : R) : hi < lo -> clamp v lo hi = hi.
Proof. intros H. clamp_cases; lra. Qed.

(** [clamp] never returns more than the upper limit, whatever the lower
    one; with the limits in the wrong order it returns the upper limit. *)
Theorem clamp_upper_limit (v lo hi : R) :
  clamp v lo hi <= hi /\ (hi < lo -> clamp v lo hi = hi).
Proof. split; [apply clamp_le_upper | apply clamp_inverted]. Qed.

(** [clamp] is monotone in the clamped value and idempotent. *)
Theorem clamp_monotone_idempotent (v v' lo hi : R) :
  (v <= v' -> clamp v lo hi <= clamp v' lo hi) /\
  clamp (clamp v lo hi) lo hi = clamp v lo hi.
Proof.
  split.
  - intros Hv. clamp_cases; lra.
  - destruct (Rle_lt_dec lo hi) as [Hlh | Hlh].
    + rewrite (clamp_cases (clamp v lo hi)).
      assert (Hr : lo <= clamp v lo hi <= hi) by (clamp_cases; lra).
      destruct (Rle_dec lo (clamp v lo hi)); [| lra].
      destruct (Rle_dec hi (clamp v lo hi)); lra.
    + now rewrite !clamp_inverted by exact Hlh.
Qed.

(** [lerp] starts at [a], ends at [b], and stays between them for a
    parameter in [0,1]. *)
Theorem lerp_between (a b t : R) :
  lerp a b 0 = a /\ lerp a b 1 = b /\
  (0 <= t <= 1 -> Rmin a b <= lerp a b t <= Rmax a b).
Proof.
  unfold lerp, Rmin, Rmax. split; [lra |]. split; [lra |].
  intros Ht. destruct (Rle_dec a b); split; nra.
Qed.

(** ** The wrapped time *)

Lemma emphasizeU_floor (tau : R) :
  emphasizeU_of tau = tau - IZR (Math_floor tau).
Proof.
  unfold emphasizeU_of. rewrite js_rem_wrap by lra.
  replace (tau / 1) with tau by field. lra.
Qed.

(** [((tau % 1) + 1) % 1] is the fractional part of [tau], in [0,1), for
    negative times as well. *)
Theorem emphasizeU_fractional (tau : R) :
  emphasizeU_of tau = tau - IZR (Math_floor tau) /\
  0 <= emphasizeU_of tau < 1.
Proof.
  split; [apply emphasizeU_floor |].
  unfold emphasizeU_of. apply js_rem_wrap_range. lra.
Qed.

(** The wrapped time does not change when whole units of time pass. *)
Theorem emphasizeU_periodic (tau : R) (k : Z) :
  emphasizeU_of (tau + IZR k) = emphasizeU_of tau.
Proof.
  rewrite !emphasizeU_floor.
  rewrite (Math_floor_unique (tau + IZR k) (Math_floor tau + k)).
  - rewrite plus_IZR. lra.
  - rewrite plus_IZR. pose proof (Math_floor_bounds tau). lra.
Qed.

(** ** The animation clock *)

Lemma animation_run_playing (speed : R) (deltas : list R) (tau : R) :
  animation_run true speed deltas tau
  = tau + 0.15 * speed * sum_deltas deltas.
Proof.
  unfold animation_run, sum_deltas. revert tau.
  induction deltas as [| d deltas IH]; intros tau;
    cbn [fold_left fold_right].
  - lra.
  - rewrite IH. unfold animation_frame. lra.
Qed.

(** While paused the clock stands still; while playing it has advanced,
    after any number of frames, by 0.15 times the speed times the elapsed
    time. *)
Theorem animation_run_closed_form (speed : R) (deltas : list R) (tau : R) :
  animation_run false speed deltas tau = tau /\
  animation_run true speed deltas tau
  = tau + 0.15 * speed * sum_deltas deltas.
Proof.
  split; [| apply animation_run_playing].
  unfold animation_run. induction deltas as [| d deltas IH]; cbn; auto.
Qed.

(** With a non-negative speed and non-negative frame times the clock never
    runs backwards. *)
Theorem animation_run_monotone (playing : bool) (speed : R)
    (deltas : list R) (tau : R) :
  0 <= speed -> Forall (fun d => 0 <= d) deltas ->
  tau <= animation_run playing speed deltas tau.
Proof.
  intros Hs Hd. destruct playing.
  - rewrite animation_run_playing.
    assert (Hsum : 0 <= sum_deltas deltas).
    { unfold sum_deltas.
      induction Hd as [| d deltas Hd0 _ IH]; cbn [fold_right]; lra. }
    nra.
  - unfold animation_run. clear Hd.
    induction deltas as [| d deltas IH]; cbn; [lra | exact IH].
Qed.

Lemma animation_run_monotone_witness :
  0 <= animation_run true 2 [0.016; 0.017] 0.
Proof.
  apply (animation_run_monotone true 2 [0.016; 0.017] 0); [lra |].
  repeat constructor; lra.
Defined.

(** ** Colours *)

Lemma in_sector_true (lo hi v : R) :
  in_sector lo hi v = true -> lo <= v < hi.
Proof.
  unfold in_sector. destruct (Rle_dec lo v); [| discriminate].
  destruct (Rlt_dec v hi); [lra | discriminate].
Qed.

Lemma in_sector_false (lo hi v : R) :
  in_sector lo hi v = false -> v < lo \/ hi <= v.
Proof.
  unfold in_sector. destruct (Rle_dec lo v); [| lra].
  destruct (Rlt_dec v hi); [discriminate | lra].
Qed.

Lemma clamp_unit (v : R) : 0 <= clamp v 0 1 <= 1.
Proof. clamp_cases; lra. Qed.

(** Case analysis on a comparison none of whose operands holds another
    one. *)
Ltac innermost_Rle :=
  match goal with
  | |- context [Rle_dec ?a ?b] =>
      lazymatch a with
      | context [Rle_dec _ _] => fail
      | _ => lazymatch b with
             | context [Rle_dec _ _] => fail
             | _ => destruct (Rle_dec a b)
             end
      end
  end.

(** The chroma, the second component and the offset computed by
    [hslToRgb]. *)
Lemma hsl_parts (s l q : R) :
  0 <= s <= 1 -> 0 <= l <= 1 -> 0 <= q < 2 ->
  let c := (1 - Rabs (2 * l - 1)) * s in
  let x := c * (1 - Rabs (q - 1)) in
  let m := l - c / 2 in
  0 <= x <= c /\ 0 <= m /\ m + c <= 1.
Proof.
  intros Hs Hl Hq c x m. subst x m c.
  assert (HA : 0 <= 1 - Rabs (2 * l - 1) <= 1
               /\ 1 - Rabs (2 * l - 1) <= 2 * l
               /\ 1 - Rabs (2 * l - 1) <= 2 - 2 * l)
    by (unfold Rabs; destruct (Rcase_abs (2 * l - 1)); lra).
  assert (HB : 0 <= 1 - Rabs (q - 1) <= 1)
    by (unfold Rabs; destruct (Rcase_abs (q - 1)); lra).
  set (A := 1 - Rabs (2 * l - 1)) in *. clearbody A.
  set (B := 1 - Rabs (q - 1)) in *. clearbody B.
  assert (Hc : 0 <= A * s <= A) by nra.
  set (c := A * s) in *. clearbody c.
  repeat split; nra.
Qed.

(** The result of [hslToRgb] is an arrangement of [m + c], [m + x] and [m]:
    the offset plus the chroma, plus the second component, plus nothing. *)
Lemma hslToRgb_shape (h s l : R) :
  exists c x m : R,
    c = (1 - Rabs (2 * clamp l 0 1 - 1)) * clamp s 0 1 /\
    m = clamp l 0 1 - c / 2 /\
    0 <= x <= c /\ 0 <= m /\ m + c <= 1 /\
    (hslToRgb h s l = (c + m, x + m, 0 + m) \/
     hslToRgb h s l = (x + m, c + m, 0 + m) \/
     hslToRgb h s l = (0 + m, c + m, x + m) \/
     hslToRgb h s l = (0 + m, x + m, c + m) \/
     hslToRgb h s l = (x + m, 0 + m, c + m) \/
     hslToRgb h s l = (c + m, 0 + m, x + m)).
Proof.
  unfold hslToRgb.
  pose proof (js_rem_wrap_range h 360 ltac:(lra)) as Hh.
  set (h' := js_rem (js_rem h 360 + 360) 360) in *. clearbody h'.
  assert (Hhp : 0 <= h' / 60 < 6) by lra.
  set (hp := h' / 60) in *. clearbody hp.
  destruct (js_rem_nonneg hp 2 ltac:(lra) ltac:(lra)) as [_ Hq].
  destruct (hsl_parts (clamp s 0 1) (clamp l 0 1) (js_rem hp 2)
              (clamp_unit s) (clamp_unit l) Hq) as (Hx & Hm & Hmc).
  cbv zeta in Hx, Hm, Hmc.
  eexists _, _, _.
  split; [reflexivity |]. split; [reflexivity |].
  split; [exact Hx |]. split; [exact Hm |]. split; [exact Hmc |].
  destruct (in_sector 0 1 hp) eqn:E1; [now left |].
  destruct (in_sector 1 2 hp) eqn:E2; [right; now left |].
  destruct (in_sector 2 3 hp) eqn:E3; [do 2 right; now left |].
  destruct (in_sector 3 4 hp) eqn:E4; [do 3 right; now left |].
  destruct (in_sector 4 5 hp) eqn:E5; [do 4 right; now left |].
  destruct (in_sector 5 6 hp) eqn:E6; [do 5 right; reflexivity |].
  apply in_sector_false in E1, E2, E3, E4, E5, E6. lra.
Qed.

(** Every colour component returned by [hslToRgb] lies in [0,1], for any
    hue, saturation and lightness. *)
Theorem hslToRgb_components (h s l : R) :
  let '(r, g, b) := hslToRgb h s l in
  0 <= r <= 1 /\ 0 <= g <= 1 /\ 0 <= b <= 1.
Proof.
  destruct (hslToRgb_shape h s l)
    as (c & x & m & _ & _ & Hx & Hm & Hmc & Hcases).
  destruct Hcases as [-> | [-> | [-> | [-> | [-> | ->]]]]];
    repeat split; lra.
Qed.

(** The lightness is recovered from the result: the greatest and the
    smallest component add up to twice the clamped lightness. *)
Theorem hslToRgb_lightness (h s l : R) :
  let '(r, g, b) := hslToRgb h s l in
  Rmax r (Rmax g b) + Rmin r (Rmin g b) = 2 * clamp l 0 1.
Proof.
  destruct (hslToRgb_shape h s l)
    as (c & x & m & _ & Hmeq & Hx & Hm & Hmc & Hcases).
  destruct Hcases as [-> | [-> | [-> | [-> | [-> | ->]]]]];
    unfold Rmax, Rmin; repeat innermost_Rle; lra.
Qed.

(** Without saturation the colour is the grey of the clamped lightness,
    whatever the hue. *)
Theorem hslToRgb_grey (h s l : R) :
  s <= 0 ->
  hslToRgb h s l = (clamp l 0 1, clamp l 0 1, clamp l 0 1).
Proof.
  intros Hs.
  destruct (hslToRgb_shape h s l)
    as (c & x & m & Hc & Hmeq & Hx & Hm & Hmc & Hcases).
  assert (Hs0 : clamp s 0 1 = 0) by (clamp_cases; lra).
  rewrite Hs0 in Hc. assert (Hc0 : c = 0) by lra.
  assert (Hx0 : x = 0) by lra.
  destruct Hcases as [-> | [-> | [-> | [-> | [-> | ->]]]]];
    repeat f_equal; lra.
Qed.

Lemma hslToRgb_grey_witness :
  hslToRgb 200 0 0.25 = (clamp 0.25 0 1, clamp 0.25 0 1, clamp 0.25 0 1).
Proof. apply (hslToRgb_grey 200 0 0.25). lra. Defined.

(** The colour depends on the hue modulo 360 only; negative hues are
    wrapped like the others. *)
Theorem hslToRgb_periodic (h s l : R) (k : Z) :
  hslToRgb (h + 360 * IZR k) s l = hslToRgb h s l.
Proof.
  unfold hslToRgb.
  rewrite (js_rem_wrap (h + 360 * IZR k) 360), (js_rem_wrap h 360) by lra.
  pose proof (floor_div_bounds h 360 ltac:(lra)) as Hb.
  rewrite (floor_div_unique (h + 360 * IZR k) 360 (Math_floor (h / 360) + k))
    by (rewrite ?plus_IZR; lra).
  rewrite plus_IZR.
  replace (h + 360 * IZR k - 360 * (IZR (Math_floor (h / 360)) + IZR k))
    with (h - 360 * IZR (Math_floor (h / 360))) by lra.
  reflexivity.
Qed.

(** ** Where a reported event comes from *)

Lemma build_loop_In params bounds steps tau fuel i p :
  In p (build_loop params bounds steps tau fuel i) ->
  exists k : Z, (i <= k <= steps)%Z /\
    p = pointOnStream (IZR k / IZR steps) tau params bounds.
Proof.
  revert i. induction fuel as [| fuel IH]; intros i Hp; [contradiction |].
  cbn [build_loop] in Hp. destruct (Z.leb_spec i steps) as [Hle | Hgt];
    [| contradiction].
  destruct Hp as [<- | Hp].
  - exists i. split; [lia | reflexivity].
  - destruct (IH _ Hp) as (k & Hk & ->). exists k. split; [lia | reflexivity].
Qed.

Lemma all_samples_In tau steps bounds streams a :
  In a (all_samples tau steps bounds streams) ->
  exists (s : StreamData) (k : Z),
    In s streams /\ (0 <= k <= steps)%Z /\
    a = tag s (pointOnStream (IZR k / IZR steps) tau (params s) bounds).
Proof.
  unfold all_samples. rewrite in_flat_map. intros (s & Hs & Ha).
  unfold stream_samples in Ha. rewrite in_map_iff in Ha.
  destruct Ha as (p & <- & Hp).
  apply build_loop_In in Hp as (k & Hk & ->).
  exists s, k. split; [exact Hs |]. split; [exact Hk | reflexivity].
Qed.

Lemma pair_body_In sliceDu threshold a b e :
  In e (pair_body sliceDu threshold a b) ->
  close_pair sliceDu threshold a b /\ e = midpoint_event a b.
Proof.
  destruct (close_pair_dec sliceDu threshold a b) as [Hc | Hc].
  - rewrite (pair_body_close _ _ _ _ Hc). intros [<- | []]. now split.
  - now rewrite (pair_body_not_close _ _ _ _ Hc).
Qed.

Lemma inner_loop_In sliceDu threshold a rest e :
  In e (inner_loop sliceDu threshold a rest) ->
  exists b, In b rest /\ close_pair sliceDu threshold a b /\
            e = midpoint_event a b.
Proof.
  induction rest as [| b rest IH]; [contradiction |].
  cbn [inner_loop]. rewrite in_app_iff. intros [He | He].
  - apply pair_body_In in He as [Hc ->]. exists b. split; [now left | now split].
  - destruct (IH He) as (b' & Hb' & Hc & ->).
    exists b'. split; [now right | now split].
Qed.

Lemma outer_loop_In sliceDu threshold all e :
  In e (outer_loop sliceDu threshold all) ->
  exists a b, In a all /\ In b all /\ close_pair sliceDu threshold a b /\
              e = midpoint_event a b.
Proof.
  induction all as [| a rest IH]; [contradiction |].
  cbn [outer_loop]. rewrite in_app_iff. intros [He | He].
  - apply inner_loop_In in He as (b & Hb & Hc & ->).
    exists a, b. split; [now left |]. split; [now right | now split].
  - destruct (IH He) as (a' & b' & Ha' & Hb' & Hc & ->).
    exists a', b'. split; [now right |]. split; [now right | now split].
Qed.

Lemma dedupe_loop_In threshold cs seen acc d :
  In d (dedupe_loop threshold cs seen acc) -> In d cs \/ In d acc.
Proof.
  revert seen acc. induction cs as [| c cs IH]; intros seen acc Hd.
  - now right.
  - cbn [dedupe_loop] in Hd.
    destruct (decide (voxel_key threshold c ∈ seen)).
    + destruct (IH _ _ Hd) as [H | H]; [left; now right | now right].
    + destruct (IH _ _ Hd) as [H | H]; [left; now right |].
      apply in_app_or in H as [H | [<- | []]]; [now right | left; now left].
Qed.

Lemma detect_In_candidates streams tau sliceDu threshold steps bounds e :
  In e (detectConvergenceAtTime streams tau sliceDu threshold steps bounds) ->
  In e (candidates tau sliceDu threshold steps bounds streams).
Proof.
  unfold detectConvergenceAtTime. intros He.
  apply In_firstn in He.
  apply (Permutation_in _ (js_sort_perm _)) in He.
  unfold dedupe in He.
  destruct (dedupe_loop_In threshold _ ∅ [] e He) as [Hc | []]. exact Hc.
Qed.

Lemma detect_origin streams tau sliceDu threshold steps bounds e :
  In e (detectConvergenceAtTime streams tau sliceDu threshold steps bounds) ->
  exists (s1 s2 : StreamData) (k1 k2 : Z),
    In s1 streams /\ In s2 streams /\
    (0 <= k1 <= steps)%Z /\ (0 <= k2 <= steps)%Z /\
    let a := tag s1 (pointOnStream (IZR k1 / IZR steps) tau (params s1) bounds) in
    let b := tag s2 (pointOnStream (IZR k2 / IZR steps) tau (params s2) bounds) in
    close_pair sliceDu threshold a b /\ e = midpoint_event a b.
Proof.
  intros He. apply detect_In_candidates in He. unfold candidates in He.
  apply outer_loop_In in He as (a & b & Ha & Hb & Hc & ->).
  apply all_samples_In in Ha as (s1 & k1 & Hs1 & Hk1 & ->).
  apply all_samples_In in Hb as (s2 & k2 & Hs2 & Hk2 & ->).
  exists s1, s2, k1, k2. cbv zeta. tauto.
Qed.

(** Every reported event is the midpoint event of two samples, taken from
    two streams of the input with different identifiers, whose path
    coordinates differ by at most [sliceDu] and whose squared distance is at
    most the squared threshold. *)
Theorem detect_sound streams tau sliceDu threshold steps bounds e :
  In e (detectConvergenceAtTime streams tau sliceDu threshold steps bounds) ->
  exists (s1 s2 : StreamData) (k1 k2 : Z),
    In s1 streams /\ In s2 streams /\
    (0 <= k1 <= steps)%Z /\ (0 <= k2 <= steps)%Z /\
    let a := tag s1 (pointOnStream (IZR k1 / IZR steps) tau (params s1) bounds) in
    let b := tag s2 (pointOnStream (IZR k2 / IZR steps) tau (params s2) bounds) in
    id s1 <> id s2 /\
    Rabs (StreamPoint.u (point a) - StreamPoint.u (point b)) <= sliceDu /\
    dist2 a b <= threshold * threshold /\
    e = midpoint_event a b.
Proof.
  intros He.
  destruct (detect_origin _ _ _ _ _ _ _ He)
    as (s1 & s2 & k1 & k2 & H1 & H2 & Hk1 & Hk2 & (Hid & Hu & Hd) & ->).
  exists s1, s2, k1, k2. cbv zeta. tauto.
Qed.

Lemma twin_event_reported :
  In (twin_event 0)
    (detectConvergenceAtTime twin_streams 0 0 100 2 twin_bounds).
Proof. apply detect_short; rewrite twin_deduped; cbn; [lia | tauto]. Qed.

Lemma detect_sound_witness :
  exists (s1 s2 : StreamData) (k1 k2 : Z),
    In s1 twin_streams /\ In s2 twin_streams /\
    (0 <= k1 <= 2)%Z /\ (0 <= k2 <= 2)%Z /\
    let a := tag s1 (pointOnStream (IZR k1 / IZR 2) 0 (params s1) twin_bounds) in
    let b := tag s2 (pointOnStream (IZR k2 / IZR 2) 0 (params s2) twin_bounds) in
    id s1 <> id s2 /\
    Rabs (StreamPoint.u (point a) - StreamPoint.u (point b)) <= 0 /\
    dist2 a b <= 100 * 100 /\
    twin_event 0 = midpoint_event a b.
Proof.
  apply (detect_sound twin_streams 0 0 100 2 twin_bounds (twin_event 0)).
  exact twin_event_reported.
Defined.

(** The strength of a reported event lies in [0,1], so the sphere drawn for
    it has a radius between 2.2 and 4.2. *)
Theorem detect_strength_radius streams tau sliceDu threshold steps bounds e :
  In e (detectConvergenceAtTime streams tau sliceDu threshold steps bounds) ->
  0 <= Convergence.strength e <= 1 /\
  2.2 <= sphere_radius (Convergence.strength e) <= 4.2.
Proof.
  intros He.
  destruct (detect_origin _ _ _ _ _ _ _ He)
    as (s1 & s2 & k1 & k2 & _ & _ & _ & _ & _ & ->).
  cbn [midpoint_event Convergence.strength point tag pointOnStream
         StreamPoint.intensity].
  unfold sphere_radius, point_intensity.
  repeat match goal with
         | |- context [sin ?a] =>
             let v := fresh "v" in
             pose proof (SIN_bound a); set (v := sin a) in *; clearbody v
         end.
  lra.
Qed.

Lemma detect_strength_radius_witness :
  0 <= Convergence.strength (twin_event 0) <= 1 /\
  2.2 <= sphere_radius (Convergence.strength (twin_event 0)) <= 4.2.
Proof.
  apply (detect_strength_radius twin_streams 0 0 100 2 twin_bounds).
  exact twin_event_reported.
Defined.

(** No self-convergence: a reported event names exactly two identifiers,
    they differ, and both belong to streams of the input. *)
Theorem detect_two_streams streams tau sliceDu threshold steps bounds e :
  In e (detectConvergenceAtTime streams tau sliceDu threshold steps bounds) ->
  exists i1 i2 : string,
    Convergence.streams e = [i1; i2] /\ i1 <> i2 /\
    In i1 (map id streams) /\ In i2 (map id streams).
Proof.
  intros He.
  destruct (detect_origin _ _ _ _ _ _ _ He)
    as (s1 & s2 & k1 & k2 & H1 & H2 & _ & _ & (Hid & _) & ->).
  exists (id s1), (id s2). cbn in *.
  split; [reflexivity |]. split; [exact Hid |].
  split; now apply in_map.
Qed.

Lemma detect_two_streams_witness :
  exists i1 i2 : string,
    Convergence.streams (twin_event 0) = [i1; i2] /\ i1 <> i2 /\
    In i1 (map id twin_streams) /\ In i2 (map id twin_streams).
Proof.
  apply (detect_two_streams twin_streams 0 0 100 2 twin_bounds).
  exact twin_event_reported.
Defined.

(** For a segment count of at least 1 the path coordinate of a reported
    event lies in [0,1]. *)
Theorem detect_u_range streams tau sliceDu threshold steps bounds e :
  (1 <= steps)%Z ->
  In e (detectConvergenceAtTime streams tau sliceDu threshold steps bounds) ->
  0 <= Convergence.u e <= 1.
Proof.
  intros Hsteps He.
  destruct (detect_origin _ _ _ _ _ _ _ He)
    as (s1 & s2 & k1 & k2 & _ & _ & Hk1 & Hk2 & _ & ->).
  cbn [midpoint_event Convergence.u point tag pointOnStream StreamPoint.u].
  assert (Hs : 0 < IZR steps) by (apply IZR_lt; lia).
  assert (Hu : forall k : Z, (0 <= k <= steps)%Z -> 0 <= IZR k / IZR steps <= 1).
  { intros k [Hlo Hhi]. apply IZR_le in Hlo, Hhi. split.
    - apply Rmult_le_pos; [exact Hlo |]. apply Rlt_le, Rinv_0_lt_compat, Hs.
    - apply (Rmult_le_reg_r (IZR steps)); [exact Hs |].
      replace (IZR k / IZR steps * IZR steps) with (IZR k) by (field; lra).
      lra. }
  pose proof (Hu k1 Hk1). pose proof (Hu k2 Hk2). lra.
Qed.

Lemma detect_u_range_witness :
  0 <= Convergence.u (twin_event 0) <= 1.
Proof.
  apply (detect_u_range twin_streams 0 0 100 2 twin_bounds); [lia |].
  exact twin_event_reported.
Defined.

(** ** Degenerate inputs *)

Lemma detect_no_candidates streams tau sliceDu threshold steps bounds :
  candidates tau sliceDu threshold steps bounds streams = [] ->
  detectConvergenceAtTime streams tau sliceDu threshold steps bounds = [].
Proof. unfold detectConvergenceAtTime. now intros ->. Qed.

(** With fewer than two streams nothing is reported, whatever the other
    arguments. *)
Theorem detect_single_stream streams tau sliceDu threshold steps bounds :
  (length streams <= 1)%nat ->
  detectConvergenceAtTime streams tau sliceDu threshold steps bounds = [].
Proof.
  intros Hlen. apply detect_no_candidates. unfold candidates.
  destruct streams as [| s [| s' streams]]; [reflexivity | | cbn in Hlen; lia].
  apply (outer_loop_same_id _ _ (id s)).
  intros a Ha. apply all_samples_In in Ha as (s0 & k & [<- | []] & _ & ->).
  reflexivity.
Qed.

Lemma detect_single_stream_witness :
  detectConvergenceAtTime [flat_stream "A" 0] 0 0.025 64 80
    {| w := 520; h := 520 |} = [].
Proof. apply detect_single_stream. cbn. lia. Defined.

Lemma outer_loop_negative_window sliceDu threshold all :
  sliceDu < 0 -> outer_loop sliceDu threshold all = [].
Proof.
  intros Hneg.
  assert (Hin : forall a rest, inner_loop sliceDu threshold a rest = []).
  { intros a rest. induction rest as [| b rest IH]; [reflexivity |].
    cbn [inner_loop]. rewrite IH, pair_body_far; [reflexivity |].
    pose proof (Rabs_pos (StreamPoint.u (point a) - StreamPoint.u (point b))).
    lra. }
  induction all as [| a rest IH]; [reflexivity |].
  cbn [outer_loop]. now rewrite Hin, IH.
Qed.

(** A negative path tolerance prunes every pair: nothing is reported. *)
Theorem detect_negative_tolerance streams tau sliceDu threshold steps bounds :
  sliceDu < 0 ->
  detectConvergenceAtTime streams tau sliceDu threshold steps bounds = [].
Proof.
  intros Hneg. apply detect_no_candidates. unfold candidates.
  now apply outer_loop_negative_window.
Qed.

Lemma detect_negative_tolerance_witness :
  detectConvergenceAtTime twin_streams 0 (- 0.01) 100 2 twin_bounds = [].
Proof. apply detect_negative_tolerance. lra. Defined.

(** A negative segment count gives a curve without points, and a detector
    without samples reports nothing. *)
Theorem negative_steps_empty (p : StreamParams) streams tau sliceDu threshold
    steps bounds :
  (steps < 0)%Z ->
  buildStreamPointsAtTime p bounds steps tau = [] /\
  detectConvergenceAtTime streams tau sliceDu threshold steps bounds = [].
Proof.
  intros Hneg.
  assert (Hb : forall q, buildStreamPointsAtTime q bounds steps tau = []).
  { intros q. unfold buildStreamPointsAtTime.
    destruct (Z.to_nat (steps + 1)) as [| fuel]; [reflexivity |].
    cbn [build_loop]. destruct (Z.leb_spec 0 steps); [lia | reflexivity]. }
  split; [apply Hb |].
  apply detect_no_candidates. unfold candidates, all_samples.
  replace (flat_map (stream_samples tau steps bounds) streams)
    with (@nil StreamPointWithId); [reflexivity |].
  induction streams as [| s streams IH]; [reflexivity |].
  cbn [flat_map]. unfold stream_samples at 1. now rewrite Hb.
Qed.

Lemma negative_steps_empty_witness :
  buildStreamPointsAtTime (flat_params 0) twin_bounds (-1) 0 = [].
Proof.
  apply (negative_steps_empty (flat_params 0) twin_streams 0 0 100 (-1)
           twin_bounds).
  lia.
Defined.

Lemma squares_sum_zero (a b c : R) :
  a * a + b * b + c * c <= 0 * 0 -> a = 0 /\ b = 0 /\ c = 0.
Proof.
  intros H.
  pose proof (Rle_0_sqr a) as Ha. pose proof (Rle_0_sqr b) as Hb.
  pose proof (Rle_0_sqr c) as Hc. unfold Rsqr in *.
  repeat split; apply Rsqr_0_uniq; unfold Rsqr; lra.
Qed.

(** With a threshold of 0 only exact coincidences are reported: an event
    lies where two samples of different streams are at the same place. *)
Theorem detect_zero_threshold streams tau sliceDu steps bounds e :
  In e (detectConvergenceAtTime streams tau sliceDu 0 steps bounds) ->
  exists (s1 s2 : StreamData) (k1 k2 : Z),
    In s1 streams /\ In s2 streams /\ id s1 <> id s2 /\
    let a := pointOnStream (IZR k1 / IZR steps) tau (params s1) bounds in
    let b := pointOnStream (IZR k2 / IZR steps) tau (params s2) bounds in
    StreamPoint.x a = StreamPoint.x b /\
    StreamPoint.y a = StreamPoint.y b /\
    StreamPoint.z a = StreamPoint.z b /\
    Convergence.x e = StreamPoint.x a /\
    Convergence.y e = StreamPoint.y a /\
    Convergence.z e = StreamPoint.z a.
Proof.
  intros He.
  destruct (detect_origin _ _ _ _ _ _ _ He)
    as (s1 & s2 & k1 & k2 & H1 & H2 & _ & _ & (Hid & _ & Hd) & ->).
  exists s1, s2, k1, k2.
  split; [exact H1 |]. split; [exact H2 |]. split; [exact Hid |].
  unfold dist2 in Hd.
  cbn [point tag midpoint_event Convergence.x Convergence.y Convergence.z]
    in *.
  set (a := pointOnStream _ tau (params s1) bounds) in *. clearbody a.
  set (b := pointOnStream _ tau (params s2) bounds) in *. clearbody b.
  cbv zeta.
  apply squares_sum_zero in Hd as (Hx & Hy & Hz).
  repeat split; lra.
Qed.

Lemma dedupe_loop_keeps_acc threshold cs seen acc d :
  In d acc -> In d (dedupe_loop threshold cs seen acc).
Proof.
  revert seen acc. induction cs as [| c cs IH]; intros seen acc Hd;
    [exact Hd |].
  cbn [dedupe_loop]. destruct (decide (voxel_key threshold c ∈ seen)).
  - now apply IH.
  - apply IH. apply in_or_app. now left.
Qed.

Lemma dedupe_loop_length threshold cs seen acc :
  (length (dedupe_loop threshold cs seen acc) <= length acc + length cs)%nat.
Proof.
  revert seen acc. induction cs as [| c cs IH]; intros seen acc;
    cbn [dedupe_loop length]; [lia |].
  destruct (decide (voxel_key threshold c ∈ seen)).
  - specialize (IH seen acc). lia.
  - specialize (IH ({[voxel_key threshold c]} ∪ seen) (acc ++ [c])).
    rewrite length_app in IH. cbn [length] in IH. lia.
Qed.

(** The first candidate of the scan is always reported when the scan finds
    at most 200 candidates. *)
Lemma detect_first_candidate streams tau sliceDu threshold steps bounds c cs :
  candidates tau sliceDu threshold steps bounds streams = c :: cs ->
  (length (c :: cs) <= 200)%nat ->
  In c (detectConvergenceAtTime streams tau sliceDu threshold steps bounds).
Proof.
  intros Hcs Hlen. unfold detectConvergenceAtTime. rewrite Hcs.
  pose proof (dedupe_loop_length threshold (c :: cs) ∅ []) as Hle.
  cbn [length] in Hle, Hlen. rewrite firstn_all2.
  - apply (Permutation_in _ (Permutation_sym (js_sort_perm _))).
    unfold dedupe. cbn [dedupe_loop].
    destruct (decide (voxel_key threshold c ∈ ∅)) as [Hin | _].
    + now apply not_elem_of_empty in Hin.
    + apply dedupe_loop_keeps_acc. now left.
  - rewrite (Permutation_length (js_sort_perm _)). unfold dedupe.
    cbn [length]. lia.
Qed.

Lemma twin_candidates_zero_threshold :
  candidates 0 0 0 2 twin_bounds twin_streams
  = [twin_event 0; twin_event 1; twin_event 2].
Proof.
  unfold candidates, all_samples, stream_samples, twin_streams.
  cbn [flat_map map app]. rewrite !buildStreamPointsAtTime_2.
  cbn [map app outer_loop inner_loop].
  repeat scan_step. reflexivity.
Qed.

Lemma cell_index_zero (v : R) :
  cell_index 0 v
  = if Rlt_dec 0 v then PosInfinity
    else if Rlt_dec v 0 then NegInfinity else NaN.
Proof.
  unfold cell_index, voxel.
  destruct (Req_dec_T (0 * 0.75) 0) as [_ | Hnz]; [reflexivity | lra].
Qed.

(** With a threshold of 0 the keys are made of [Infinity], [-Infinity] and
    [NaN]: the three coincidences of the twin streams have the first
    components [-Infinity], [NaN] and [Infinity], and all three are kept. *)
Example twin_zero_threshold_deduped :
  dedupe 0 (candidates 0 0 0 2 twin_bounds twin_streams)
  = [twin_event 0; twin_event 1; twin_event 2].
Proof.
  rewrite twin_candidates_zero_threshold, dedupe_keep_first.
  assert (K0 : (voxel_key 0 (twin_event 0)).1.1 = NegInfinity).
  { cbn [voxel_key fst]. rewrite cell_index_zero, twin_event_x.
    destruct (Rlt_dec 0 _) as [H | _]; [cbn in H; lra |].
    destruct (Rlt_dec _ 0) as [_ | H]; [reflexivity | cbn in H; lra]. }
  assert (K1 : (voxel_key 0 (twin_event 1)).1.1 = NaN).
  { cbn [voxel_key fst]. rewrite cell_index_zero, twin_event_x.
    destruct (Rlt_dec 0 _) as [H | _]; [cbn in H; lra |].
    destruct (Rlt_dec _ 0) as [H | _]; [cbn in H; lra | reflexivity]. }
  assert (K2 : (voxel_key 0 (twin_event 2)).1.1 = PosInfinity).
  { cbn [voxel_key fst]. rewrite cell_index_zero, twin_event_x.
    destruct (Rlt_dec 0 _) as [_ | H]; [reflexivity | cbn in H; lra]. }
  apply keep_first_3_distinct; intros H;
    apply (f_equal (fun k : cell * cell * cell => k.1.1)) in H;
    cbv beta in H; rewrite ?K0, ?K1, ?K2 in H; discriminate.
Qed.

Lemma detect_zero_threshold_witness :
  exists (s1 s2 : StreamData) (k1 k2 : Z),
    In s1 twin_streams /\ In s2 twin_streams /\ id s1 <> id s2 /\
    let a := pointOnStream (IZR k1 / IZR 2) 0 (params s1) twin_bounds in
    let b := pointOnStream (IZR k2 / IZR 2) 0 (params s2) twin_bounds in
    StreamPoint.x a = StreamPoint.x b /\
    StreamPoint.y a = StreamPoint.y b /\
    StreamPoint.z a = StreamPoint.z b /\
    Convergence.x (twin_event 0) = StreamPoint.x a /\
    Convergence.y (twin_event 0) = StreamPoint.y a /\
    Convergence.z (twin_event 0) = StreamPoint.z a.
Proof.
  apply (detect_zero_threshold twin_streams 0 0 2 twin_bounds (twin_event 0)).
  apply (detect_first_candidate _ _ _ _ _ _ _ _ twin_candidates_zero_threshold).
  cbn. lia.
Defined.

(** ** Cells, tolerance and threshold *)

Lemma dedupe_loop_distinct_cells threshold cs seen acc :
  List.NoDup (map (voxel_key threshold) acc) ->
  (forall k, k ∈ seen <-> In k (map (voxel_key threshold) acc)) ->
  List.NoDup (map (voxel_key threshold) (dedupe_loop threshold cs seen acc)).
Proof.
  revert seen acc. induction cs as [| c cs IH]; intros seen acc Hnd Hseen;
    [exact Hnd |].
  cbn [dedupe_loop].
  destruct (decide (voxel_key threshold c ∈ seen)) as [Hin | Hout].
  - now apply IH.
  - apply IH.
    + rewrite map_app. cbn [map]. apply List.NoDup_app.
      * exact Hnd.
      * repeat constructor. intros [].
      * intros k Hk [<- | []]. apply Hout, Hseen, Hk.
    + intros k. rewrite elem_of_union, elem_of_singleton, Hseen, map_app,
        in_app_iff. cbn [map In]. intuition congruence.
Qed.

(** For a nonzero threshold no two reported events lie in the same voxel
    cell. *)
Theorem detect_distinct_cells streams tau sliceDu threshold steps bounds :
  threshold <> 0 ->
  List.NoDup
    (map (voxel_key threshold)
       (detectConvergenceAtTime streams tau sliceDu threshold steps bounds)).
Proof.
  intros _. unfold detectConvergenceAtTime.
  set (deduped := dedupe threshold _).
  assert (Hd : List.NoDup (map (voxel_key threshold) deduped)).
  { subst deduped. unfold dedupe. apply dedupe_loop_distinct_cells.
    - constructor.
    - intros k. cbn. split; [| tauto].
      intros Hk. now apply not_elem_of_empty in Hk. }
  assert (Hs : List.NoDup (map (voxel_key threshold)
                             (js_sort by_strength deduped))).
  { eapply Permutation_NoDup; [| exact Hd].
    apply Permutation_map, Permutation_sym, js_sort_perm. }
  rewrite <- (firstn_skipn 200 (js_sort by_strength deduped)), map_app in Hs.
  now apply NoDup_app_remove_r in Hs.
Qed.

Lemma detect_distinct_cells_witness :
  List.NoDup
    (map (voxel_key 100)
       (detectConvergenceAtTime twin_streams 0 0 100 2 twin_bounds)).
Proof. apply detect_distinct_cells. lra. Defined.

Lemma pair_body_sublist du1 du2 t1 t2 a b :
  du1 <= du2 -> 0 <= t1 <= t2 ->
  pair_body du1 t1 a b `sublist_of` pair_body du2 t2 a b.
Proof.
  intros Hdu Ht.
  destruct (close_pair_dec du1 t1 a b) as [Hc | Hc].
  - rewrite (pair_body_close _ _ _ _ Hc), pair_body_close; [reflexivity |].
    destruct Hc as (Hid & Hu & Hd). repeat split; [exact Hid | lra | nra].
  - rewrite (pair_body_not_close _ _ _ _ Hc). apply sublist_nil_l.
Qed.

Lemma outer_loop_sublist du1 du2 t1 t2 all :
  du1 <= du2 -> 0 <= t1 <= t2 ->
  outer_loop du1 t1 all `sublist_of` outer_loop du2 t2 all.
Proof.
  intros Hdu Ht.
  assert (Hin : forall a rest,
             inner_loop du1 t1 a rest `sublist_of` inner_loop du2 t2 a rest).
  { intros a rest. induction rest as [| b rest IH]; [constructor |].
    cbn [inner_loop]. apply sublist_app; [| exact IH].
    now apply pair_body_sublist. }
  induction all as [| a rest IH]; [constructor |].
  cbn [outer_loop]. apply sublist_app; [apply Hin | exact IH].
Qed.

(** Widening the path tolerance or raising the threshold only adds
    candidates: the former candidates remain, in the same order. *)
Theorem candidates_widen streams tau du1 du2 t1 t2 steps bounds :
  du1 <= du2 -> 0 <= t1 <= t2 ->
  candidates tau du1 t1 steps bounds streams
    `sublist_of` candidates tau du2 t2 steps bounds streams.
Proof. intros Hdu Ht. unfold candidates. now apply outer_loop_sublist. Qed.

Lemma candidates_widen_witness :
  candidates 0 0 100 2 twin_bounds twin_streams
    `sublist_of` candidates 0 0.5 120 2 twin_bounds twin_streams.
Proof. apply candidates_widen; lra. Defined.

Lemma dedupe_loop_fresh threshold l seen acc :
  List.NoDup (map (voxel_key threshold) l) ->
  (forall c, In c l -> voxel_key threshold c ∉ seen) ->
  dedupe_loop threshold l seen acc = acc ++ l.
Proof.
  revert seen acc. induction l as [| c l IH]; intros seen acc Hnd Hfresh.
  - cbn. now rewrite app_nil_r.
  - cbn [dedupe_loop map] in *. inversion Hnd as [| k ks Hk Hnd']. subst.
    destruct (decide (voxel_key threshold c ∈ seen)) as [Hin | _].
    + exfalso. apply (Hfresh c); [now left | exact Hin].
    + rewrite IH; [now rewrite <- app_assoc | exact Hnd' |].
      intros c' Hc'. rewrite elem_of_union, elem_of_singleton.
      intros [Heq | Hin].
      * apply Hk. rewrite <- Heq. now apply in_map.
      * apply (Hfresh c'); [now right | exact Hin].
Qed.

(** Deduplicating a deduplicated list changes nothing. *)
Theorem dedupe_idempotent (threshold : R) (cs : list Convergence.t) :
  dedupe threshold (dedupe threshold cs) = dedupe threshold cs.
Proof.
  unfold dedupe at 1.
  rewrite dedupe_loop_fresh; [reflexivity | |].
  - unfold dedupe. apply dedupe_loop_distinct_cells; [constructor |].
    intros k. cbn. split; [| tauto].
    intros Hk. now apply not_elem_of_empty in Hk.
  - intros c _ Hin. now apply not_elem_of_empty in Hin.
Qed.

(** ** The generated parameters, continued *)

(** The parameters that the range of the x-frequency, the amplitudes and
    the colour seed leave open: the other two frequencies, the twist, the
    swirl and the two phases. *)
Theorem makeStreamParams_other_ranges (ident : string) (seedBase : R) :
  let p := makeStreamParams ident seedBase in
  1 <= fy p < 4 /\ 1 <= fz p < 3.5 /\
  - 0.4 <= twist p < 0.4 /\ - 0.3 <= swirl p < 0.3 /\
  0 <= phaseY p < 2 * PI /\ 0 <= phaseZ p < 2 * PI.
Proof.
  cbn [makeStreamParams fy fz twist swirl phaseY phaseZ].
  pose proof PI_RGT_0 as Hpi.
  repeat split;
    match goal with
    | |- context [rand ?s] =>
        pose proof (rand_range s) as [Hlo Hhi];
        first [ lra
              | apply Rmult_le_pos; [apply Rmult_le_pos |]; lra
              | set (r := rand s) in *; clearbody r; nra ]
    end.
Qed.

(** The identifier enters the parameters through its length only: two
    identifiers of the same length give the same parameters for the same
    seed base. *)
Theorem makeStreamParams_length_only (id1 id2 : string) (seedBase : R) :
  String.length id1 = String.length id2 ->
  makeStreamParams id1 seedBase = makeStreamParams id2 seedBase.
Proof.
  intros Hlen. unfold makeStreamParams, subseed. now rewrite Hlen.
Qed.

Lemma makeStreamParams_length_only_witness :
  makeStreamParams "S-1" 7 = makeStreamParams "S-2" 7.
Proof. apply makeStreamParams_length_only. reflexivity. Defined.

(** ** The streams of the scene *)

Example stream_name_12 : stream_name 11 = "S-12".
Proof. reflexivity. Qed.

Lemma stream_name_inj (i j : nat) : stream_name i = stream_name j -> i = j.
Proof.
  unfold stream_name. intros H.
  apply (inj (String.append "S-")) in H.
  apply (inj (pretty (A:=nat))) in H. lia.
Qed.

Lemma scene_loop_ids (i : nat) (draws : list R) :
  map (fun s => id (data s)) (scene_loop i draws)
  = map stream_name (seq i (length draws)).
Proof.
  revert i. induction draws as [| d draws IH]; intros i; [reflexivity |].
  cbn [scene_loop map length seq]. now rewrite IH.
Qed.

(** The scene holds one stream for each requested one; the stream at
    position [i] is named S-(i+1), and no two streams share a name. *)
Theorem scene_streams_names (draws : list R) :
  length (scene_streams draws) = length draws /\
  map (fun s => id (data s)) (scene_streams draws)
  = map stream_name (seq 0 (length draws)) /\
  List.NoDup (map (fun s => id (data s)) (scene_streams draws)).
Proof.
  unfold scene_streams.
  assert (Hids := scene_loop_ids 0 draws).
  split; [| split; [exact Hids |]].
  - apply (f_equal (@length _)) in Hids.
    now rewrite !length_map, length_seq in Hids.
  - rewrite Hids. apply Finite.Injective_map_NoDup.
    + intros i j. apply stream_name_inj.
    + apply seq_NoDup.
Qed.

Lemma makeStreamParams_colorSeed (ident : string) (seedBase : R) :
  exists k : Z,
    colorSeed (makeStreamParams ident seedBase) = IZR k /\ (0 <= k < 360)%Z.
Proof.
  unfold makeStreamParams. cbn [colorSeed].
  eexists. split; [reflexivity |].
  apply Math_floor_scaled_range; [lia | apply rand_range].
Qed.

Lemma scene_loop_hues (i : nat) (draws : list R) :
  Forall (fun s => 0 <= hue s < 360) (scene_loop i draws).
Proof.
  revert i. induction draws as [| d draws IH]; intros i; cbn [scene_loop];
    constructor; [| apply IH].
  cbn [scene_stream hue].
  destruct (makeStreamParams_colorSeed (stream_name i) (seed_base d))
    as (k & -> & Hk).
  apply js_rem_nonneg; [lra |].
  assert (0 <= IZR k) by (apply IZR_le; lia). lra.
Qed.

(** Every stream of the scene gets a hue in [0, 360), and a draw in [0,1)
    gives a seed base that is an integer in [0, 2^31). *)
Theorem scene_streams_hues_seeds (draws : list R) :
  Forall (fun s => 0 <= hue s < 360) (scene_streams draws) /\
  Forall (fun d => 0 <= d < 1 ->
            exists k : Z, seed_base d = IZR k /\ (0 <= k < 2 ^ 31)%Z) draws.
Proof.
  split; [apply scene_loop_hues |].
  apply List.Forall_forall. intros d _ Hd. unfold seed_base.
  eexists. split; [reflexivity |].
  replace (2 ^ 31) with (IZR (2 ^ 31)).
  - apply Math_floor_scaled_range; [lia | exact Hd].
  - change (2 ^ 31)%Z with (2 ^ Z.of_nat 31)%Z. now rewrite <- pow_IZR.
Qed.

(** ** The convergence list and the vertex colours *)

Lemma toFixed1_bounds (v : R) :
  0 <= v ->
  (0 <= toFixed1 v)%Z /\
  IZR (toFixed1 v) / 10 - 0.05 <= v < IZR (toFixed1 v) / 10 + 0.05 /\
  (toFixed1 v = 0%Z <-> v < 0.05).
Proof.
  intros Hv. unfold toFixed1.
  pose proof (Math_floor_bounds (v * 10 + / 2)) as [Hlo Hhi].
  split; [| split; [lra |]].
  - apply Z.lt_succ_r, lt_IZR. rewrite succ_IZR. lra.
  - split.
    + intros H0. rewrite H0 in Hhi. lra.
    + intros Hsmall. apply Math_floor_unique. lra.
Qed.

(** The list of convergences has one row for each of the first 20 events
    and no other.  The distance shown in a row is the Euclidean distance
    from the event to the nexus point rounded to one decimal: it is not
    negative, it is within 0.05 of the distance, and it reads 0.0 exactly
    when the distance is below 0.05. *)
Theorem listed_distances_spec (convergences : list Convergence.t)
    (p : NexusPoint.t) :
  length (listed_distances convergences p)
  = Nat.min 20 (length convergences) /\
  forall (i : nat) (n : Z),
    nth_error (listed_distances convergences p) i = Some n ->
    exists c : Convergence.t,
      (i < 20)%nat /\ nth_error convergences i = Some c /\
      let d := sqrt ((Convergence.x c - NexusPoint.x p)
                       * (Convergence.x c - NexusPoint.x p)
                     + (Convergence.y c - NexusPoint.y p)
                       * (Convergence.y c - NexusPoint.y p)
                     + (Convergence.z c - NexusPoint.z p)
                       * (Convergence.z c - NexusPoint.z p)) in
      (0 <= n)%Z /\
      IZR n / 10 - 0.05 <= d < IZR n / 10 + 0.05 /\
      (n = 0%Z <-> d < 0.05).
Proof.
  unfold listed_distances. split.
  - now rewrite length_map, length_firstn.
  - intros i n Hn. rewrite nth_error_map, nth_error_firstn in Hn.
    destruct (Nat.ltb_spec i 20) as [Hi | Hi]; [| discriminate].
    destruct (nth_error convergences i) as [c |] eqn:Hc; [| discriminate].
    cbn in Hn. injection Hn as <-.
    exists c. split; [exact Hi |]. split; [reflexivity |].
    apply toFixed1_bounds. apply sqrt_pos.
Qed.

Lemma exp_le_1 (v : R) : v <= 0 -> 0 < exp v <= 1.
Proof.
  intros Hv. split; [apply exp_pos |].
  destruct Hv as [Hlt | ->]; [| rewrite exp_0; lra].
  rewrite <- exp_0. now apply Rlt_le, exp_increasing.
Qed.

(** The lightness of a vertex is 0.5 without emphasis; with an emphasised
    path coordinate and a nonzero width it lies between 0.35 and 0.8, is
    0.8 at the emphasised coordinate, and does not grow with the distance
    to it. *)
Theorem vertex_lightness_bell (eu width u u' : R) :
  width <> 0 ->
  vertex_lightness None width u = 0.5 /\
  0.35 <= vertex_lightness (Some eu) width u <= 0.8 /\
  vertex_lightness (Some eu) width eu = 0.8 /\
  (Rabs (u - eu) <= Rabs (u' - eu) ->
   vertex_lightness (Some eu) width u' <= vertex_lightness (Some eu) width u).
Proof.
  intros Hw. unfold vertex_lightness, lerp.
  split; [reflexivity |]. split; [| split].
  - set (t := Rabs (u - eu) / width).
    pose proof (exp_le_1 (- (t * t)) ltac:(nra)). lra.
  - rewrite Rminus_diag, Rabs_R0. unfold Rdiv. rewrite !Rmult_0_l, Ropp_0, exp_0.
    lra.
  - intros Hfar.
    pose proof (Rabs_pos (u - eu)) as H0.
    set (d := Rabs (u - eu)) in *. set (d' := Rabs (u' - eu)) in *.
    assert (Hsq : d / width * (d / width) <= d' / width * (d' / width)).
    { unfold Rdiv. set (iw := / width).
      replace (d * iw * (d * iw)) with (d * d * (iw * iw)) by ring.
      replace (d' * iw * (d' * iw)) with (d' * d' * (iw * iw)) by ring.
      apply Rmult_le_compat_r; [apply Rle_0_sqr | nra]. }
    assert (Hexp : exp (- (d' / width * (d' / width)))
                   <= exp (- (d / width * (d / width)))).
    { destruct Hsq as [Hlt | Heq].
      - apply Rlt_le, exp_increasing. lra.
      - rewrite Heq. lra. }
    lra.
Qed.

Lemma vertex_lightness_bell_witness :
  vertex_lightness (Some 0.5) 0.05 0.5 = 0.8.
Proof.
  apply (vertex_lightness_bell 0.5 0.05 0.5 0.5). lra.
Defined.
